(** * Date attributes of an element: src/core/dom/parse-date-attributes.js

    A shallow embedding of [dateAttrParsers], [parseEpoch] and
    [parseDateAttrs], and the properties of the three that the
    specification states; then the frame loop and the choice of the
    background element of the story background blur. *)

From Stdlib Require Import ZArith Ascii String List Lia.
From Stdlib Require Import QArith Lqa Sorted.
From stdpp Require Import base option strings list gmap fin_maps.
Import ListNotations.

Local Open Scope string_scope.
Local Open Scope Z_scope.

(** ** JavaScript values the module computes with *)

Module Js.

(** The numbers of the language are IEEE 754 doubles. Every finite double is
    a whole multiple of the least one, [2^-1074]: [Finite k] is [k] times
    [2^-1074], and [k] is a double when it is below [2^1024] in magnitude and
    has at most 53 significant bits. The two zeros are one here: the module
    tests a number for truthiness, adds and multiplies, none of which tells
    them apart in what it hands on. *)
Definition scale : Z := 2 ^ 1074.

(** [2^1024] in multiples of [2^-1074]: a result of that magnitude or more is
    infinite. *)
Definition limit : Z := 2 ^ 2098.

Inductive number : Type :=
  | NaN
  | Infinity (negative : bool)
  | Finite (k : Z).

(** [m / 2^shift] to the nearest integer, a tie to the even one. *)
Definition roundHalfEven (m shift : Z) : Z :=
  let d := 2 ^ shift in
  let q := m / d in
  let r := m mod d in
  if 2 * r <? d then q
  else if d <? 2 * r then q + 1
  else if Z.even q then q else q + 1.

(** The double nearest to [m * 2^(-1074 - s)], for [0 <= s]: the rounding of
    the language, to nearest with ties to even, at 53 significant bits and
    not below the least double; too large a result is infinite. *)
Definition round (m s : Z) : number :=
  if m =? 0 then Finite 0
  else
    let n := Z.log2 (Z.abs m) + 1 in
    let shift := Z.max (n - 53) s in
    let k := roundHalfEven m shift * 2 ^ (shift - s) in
    if limit <=? Z.abs k then Infinity (k <? 0) else Finite k.

(** The double of an integer: the integer itself up to [2^53] in magnitude,
    the nearest double beyond. *)
Definition Num (z : Z) : number := round (z * scale) 0.

(** [a + b]. *)
Definition add (a b : number) : number :=
  match a, b with
  | NaN, _ | _, NaN => NaN
  | Infinity s1, Infinity s2 => if Bool.eqb s1 s2 then Infinity s1 else NaN
  | Infinity s, Finite _ | Finite _, Infinity s => Infinity s
  | Finite x, Finite y => round (x + y) 0
  end.

(** [a * b]. *)
Definition mul (a b : number) : number :=
  match a, b with
  | NaN, _ | _, NaN => NaN
  | Infinity s1, Infinity s2 => Infinity (xorb s1 s2)
  | Infinity s, Finite y | Finite y, Infinity s =>
      if y =? 0 then NaN else Infinity (xorb s (y <? 0))
  | Finite x, Finite y => round (x * y) 1074
  end.

(** [a - b]. *)
Definition sub (a b : number) : number :=
  match a, b with
  | NaN, _ | _, NaN => NaN
  | Infinity s1, Infinity s2 => if Bool.eqb s1 s2 then NaN else Infinity s1
  | Infinity s, Finite _ => Infinity s
  | Finite _, Infinity s => Infinity (negb s)
  | Finite x, Finite y => round (x - y) 0
  end.

(** [a < b]. *)
Definition lt (a b : number) : bool :=
  match a, b with
  | NaN, _ | _, NaN => false
  | Infinity s1, Infinity s2 => s1 && negb s2
  | Infinity s, Finite _ => s
  | Finite _, Infinity s => negb s
  | Finite x, Finite y => x <? y
  end.

(** ToBoolean on a number: [0] and [NaN] are falsy. *)
Definition truthy (n : number) : bool :=
  match n with
  | NaN => false
  | Infinity _ => true
  | Finite k => negb (k =? 0)
  end.

(** ToBoolean on what [getAttribute] returns: [null] and the empty string are
    falsy. *)
Definition truthyAttr (v : option string) : bool :=
  match v with
  | None => false
  | Some s => negb (String.eqb s "")
  end.

(** [x || 0]. *)
Definition orZero (n : number) : number :=
  if truthy n then n else Num 0.

(** [Array.prototype.join]. *)
Definition join (sep : string) (l : list string) : string :=
  String.concat sep l.

(** The multiple [k] of [2^-1074] is a double: at most 53 significant bits,
    and below [2^1024]. *)
Definition representable (k : Z) : Prop :=
  ∃ c t, 0 <= t ∧ k = c * 2 ^ t ∧ Z.abs c < 2 ^ 53 ∧ Z.abs k < limit.

(** The number is a value of the language. *)
Definition isDouble (n : number) : Prop :=
  match n with
  | Finite k => representable k
  | _ => True
  end.

(** The integer that a number is, when it is one. *)
Definition integerValue (n : number) : option Z :=
  match n with
  | Finite k => if k mod scale =? 0 then Some (k / scale) else None
  | _ => None
  end.

End Js.

Import Js.

(** ** Errors and outcomes *)

(** The three errors the module raises through [devAssert] and [userAssert],
    under the names the specification gives them. *)
Inductive error : Type :=
  | UnknownAttributeError (attrName : string)
  | InvalidDateError (datetime : string)
  | MissingAttributeError (dateAttrs : list string).

(** The message of each error: the format strings of the source with their
    arguments filled in. *)
Definition message (e : error) : string :=
  match e with
  | UnknownAttributeError attrName =>
      "Invalid date attribute " ++ String (ascii_of_nat 34) attrName
        ++ String (ascii_of_nat 34) ""
  | InvalidDateError datetime => "Invalid date: " ++ datetime
  | MissingAttributeError dateAttrs =>
      "One of attributes [" ++ join ", " dateAttrs ++ "] is required"
  end.

(** How far an evaluation is followed. [ProtoCall member arg] records that
    the call [parsers[i](attrVal)] has invoked, with [arg], a member that the
    registry object inherits from [Object.prototype]. The source goes on from
    whatever that member returns: [Object("x")] is a truthy object, which
    passes the assertion of [parseDateAttrs], so that [offset-seconds] is read
    and a string comes back. The embedding follows the evaluation up to the
    call and no further: the reads recorded with a [ProtoCall] are those made
    before the call, and nothing is stated about what comes after it. *)
Inductive outcome (A : Type) : Type :=
  | Returns (a : A)
  | Throws (e : error)
  | ProtoCall (member arg : string).
Arguments Returns {A} a.
Arguments Throws {A} e.
Arguments ProtoCall {A} member arg.

(** An evaluation: its outcome, and the attribute names it passed to
    [getAttribute], in order. *)
Definition run (A : Type) : Type := (outcome A * list string)%type.

#[global] Instance run_ret : MRet run := λ A a, (Returns a, []).

#[global] Instance run_bind : MBind run := λ A B f m,
  match m.1 with
  | Returns a => ((f a).1, (m.2 ++ (f a).2)%list)
  | Throws e => (Throws e, m.2)
  | ProtoCall member arg => (ProtoCall member arg, m.2)
  end.

Definition throw {A : Type} (e : error) : run A := (Throws e, []).

(** ** The element *)

(** The element is the finite map of its attributes, and
    [element.getAttribute(name)] the value of the attribute, [None] for
    [null]. *)
Definition getAttribute (element : gmap string string) (name : string)
  : run (option string) :=
  (Returns (element !! name), [name]).

(** ** The registry *)

(** The five keys of [dateAttrParsers]. *)
Inductive attr : Type :=
  | Datetime
  | EndDate
  | TimeleftMs
  | TimestampMs
  | TimestampSeconds.

(** The own properties of the object literal [dateAttrParsers]. *)
Definition dateAttrParsers : gmap string attr :=
  {[ "datetime" := Datetime;
     "end-date" := EndDate;
     "timeleft-ms" := TimeleftMs;
     "timestamp-ms" := TimestampMs;
     "timestamp-seconds" := TimestampSeconds ]}.

(** The key of each parser. *)
Definition attrName (a : attr) : string :=
  match a with
  | Datetime => "datetime"
  | EndDate => "end-date"
  | TimeleftMs => "timeleft-ms"
  | TimestampMs => "timestamp-ms"
  | TimestampSeconds => "timestamp-seconds"
  end.

(** The property names of [Object.prototype], the prototype of every object
    literal. Each of them reads as a function or an object, hence truthy. *)
Definition objectPrototype : list string :=
  [ "constructor"; "hasOwnProperty"; "isPrototypeOf"; "propertyIsEnumerable";
    "toLocaleString"; "toString"; "valueOf"; "__proto__";
    "__defineGetter__"; "__defineSetter__"; "__lookupGetter__";
    "__lookupSetter__" ].

(** What a property read on the registry yields when it is not [undefined]. *)
Inductive entry : Type :=
  | Own (a : attr)
  | Inherited (member : string).

(** [dateAttrParsers[attrName]]: an own property, else a property of the
    prototype, else [undefined]. *)
Definition lookupParser (name : string) : option entry :=
  match dateAttrParsers !! name with
  | Some a => Some (Own a)
  | None =>
      if bool_decide (name ∈ objectPrototype) then Some (Inherited name)
      else None
  end.

(** ** Assertions *)

(** Modelled from the spec: [devAssert] of ../assert is imported, not defined
    in these sources. The specification has the registry lookup fail with
    [UnknownAttributeError] for a name that has no parser: the assertion
    raises on the falsy [undefined] and returns any entry it is given. *)
Definition devAssert (shouldBeTruthy : option entry) (e : error) : run entry :=
  match shouldBeTruthy with
  | Some p => mret p
  | None => throw e
  end.

(** Modelled from the spec: [userAssert] of ../assert is imported, not defined
    in these sources. The specification has it fail on [null]. It is the
    assertion of the code base on the truthiness of its first argument, which
    it returns when it passes (the sources use [devAssert] for the value it
    returns, in [getLocalizationService(devAssert(this.element))]): a falsy
    value, [null], [0] or [NaN], raises the error. *)
Definition userAssert (shouldBeTruthy : option number) (e : error)
  : run number :=
  match shouldBeTruthy with
  | Some n => if truthy n then mret n else throw e
  | None => throw e
  end.

(** ** The parsers, the resolver and the entry point *)

Section ParseDateAttributes.

(** The host: [Number] on a string, [parseDate] of ../types/date ([None] for
    [null]), and the clock that [Date.now()] reads. *)
Variable Number : string → number.
Variable parseDate : string → option Z.
Variable now : Z.

(** [Number(v)] on what [getAttribute] returns: [Number(null)] is [0]. *)
Definition toNumber (v : option string) : number :=
  match v with
  | None => Num 0
  | Some s => Number s
  end.

(** The function stored under each key of [dateAttrParsers]. *)
Definition parser (a : attr) (value : string) : run number :=
  match a with
  | Datetime => userAssert (Num <$> parseDate value) (InvalidDateError value)
  | EndDate => userAssert (Num <$> parseDate value) (InvalidDateError value)
  | TimeleftMs => mret (add (Num now) (Number value))
  | TimestampMs => mret (Number value)
  | TimestampSeconds => mret (mul (Num 1000) (Number value))
  end.

(** [parsers[i](attrVal)]. An entry of the registry's own is the parser of
    its key; an inherited member is called with the value, and the evaluation
    is followed no further than that call. *)
Definition call (p : entry) (attrVal : string) : run number :=
  match p with
  | Own a => parser a attrVal
  | Inherited member => (ProtoCall member attrVal, [])
  end.

(** [dateAttrs.map((attrName) => devAssert(dateAttrParsers[attrName], ...))]. *)
Definition validate (dateAttrs : list string) : run (list entry) :=
  mapM (λ name, devAssert (lookupParser name) (UnknownAttributeError name))
       dateAttrs.

(** The [for] loop of [parseEpoch]: at each index the name of [dateAttrs]
    and the entry of [parsers], which have the same length. *)
Fixpoint scan (element : gmap string string)
    (dateAttrs : list string) (parsers : list entry) : run (option number) :=
  match dateAttrs, parsers with
  | name :: dateAttrs', p :: parsers' =>
      attrVal ← getAttribute element name;
      match attrVal with
      | Some v =>
          if String.eqb v "" then scan element dateAttrs' parsers'
          else epoch ← call p v; mret (Some epoch)
      | None => scan element dateAttrs' parsers'
      end
  | _, _ => mret None
  end.

Definition parseEpoch (element : gmap string string)
    (dateAttrs : list string) : run (option number) :=
  parsers ← validate dateAttrs;
  scan element dateAttrs parsers.

Definition parseDateAttrs (element : gmap string string)
    (dateAttrs : list string) : run number :=
  resolved ← parseEpoch element dateAttrs;
  epoch ← userAssert resolved (MissingAttributeError dateAttrs);
  offsetAttr ← getAttribute element "offset-seconds";
  let offsetSeconds := mul (orZero (toNumber offsetAttr)) (Num 1000) in
  mret (add epoch offsetSeconds).

(** [(Number(element.getAttribute('offset-seconds')) || 0) * 1000], from the
    value of the attribute. *)
Definition offsetSeconds (offsetAttr : option string) : number :=
  mul (orZero (toNumber offsetAttr)) (Num 1000).

End ParseDateAttributes.

(** ** Recognized names *)

(** A name with a parser of its own is one of the five keys. *)
Definition recognized (name : string) : Prop :=
  is_Some (dateAttrParsers !! name).

(** ** A concrete host *)

Module Host.

Definition digitValue (c : ascii) : option Z :=
  let n := Z.of_N (N_of_ascii c) in
  if (48 <=? n) && (n <=? 57) then Some (n - 48) else None.

(** The value of a string of decimal digits, most significant first. *)
Fixpoint decimalDigits (s : string) (acc : Z) : option Z :=
  match s with
  | EmptyString => Some acc
  | String c s' =>
      match digitValue c with
      | Some d => decimalDigits s' (10 * acc + d)
      | None => None
      end
  end.

(** [Number] on the strings the examples use. It agrees with the conversion
    of the language on the empty string ([0]), on a decimal integer literal
    with an optional sign, and on a string that begins with a lower-case
    letter ([NaN]). Literals with a fraction, an exponent, a radix prefix or
    surrounding white space do not occur in the examples. *)
Definition decimalNumber (s : string) : number :=
  match s with
  | EmptyString => Num 0
  | String "-" (String _ _ as ds) =>
      match decimalDigits ds 0 with Some z => Num (- z) | None => NaN end
  | String "+" (String _ _ as ds) =>
      match decimalDigits ds 0 with Some z => Num z | None => NaN end
  | String "-" EmptyString | String "+" EmptyString => NaN
  | _ => match decimalDigits s 0 with Some z => Num z | None => NaN end
  end.

(** [decimalNumber] with the literal ["0.5"], one half, added. *)
Definition fractionNumber (s : string) : number :=
  if String.eqb s "0.5" then Finite (2 ^ 1073) else decimalNumber s.

Definition isLeapYear (y : Z) : bool :=
  ((y mod 4 =? 0) && negb (y mod 100 =? 0)) || (y mod 400 =? 0).

Definition daysInMonth (y m : Z) : Z :=
  if m =? 2 then (if isLeapYear y then 29 else 28)
  else if (m =? 4) || (m =? 6) || (m =? 9) || (m =? 11) then 30
  else 31.

(** Days from 1970-01-01 to the civil date [y]-[m]-[d] of the proleptic
    Gregorian calendar. *)
Definition daysFromCivil (y m d : Z) : Z :=
  let y' := if m <=? 2 then y - 1 else y in
  let era := y' / 400 in
  let yoe := y' - era * 400 in
  let doy := (153 * (if 2 <? m then m - 3 else m + 9) + 2) / 5 + d - 1 in
  let doe := yoe * 365 + yoe / 4 - yoe / 100 + doy in
  era * 146097 + doe - 719468.

(** The decimal field of [len] digits at [start]. *)
Definition field (s : string) (start len : nat) : option Z :=
  decimalDigits (String.substring start len s) 0.

(** Modelled from the spec: [parseDate] of ../types/date is imported, not
    defined in these sources. The specification has it turn a date/time
    string into the epoch milliseconds of the parsed calendar instant, with
    [null] for an unparsable one. This is that function on the UTC instants
    written [YYYY-MM-DDTHH:MM:SSZ]; every other string is unparsable here. *)
Definition isoParseDate (s : string) : option Z :=
  if negb (Nat.eqb (String.length s) 20) then None
  else if negb (String.eqb (String.substring 4 1 s) "-"
                && String.eqb (String.substring 7 1 s) "-"
                && String.eqb (String.substring 10 1 s) "T"
                && String.eqb (String.substring 13 1 s) ":"
                && String.eqb (String.substring 16 1 s) ":"
                && String.eqb (String.substring 19 1 s) "Z") then None
  else
    y ← field s 0 4; m ← field s 5 2; d ← field s 8 2;
    h ← field s 11 2; mi ← field s 14 2; sec ← field s 17 2;
    if (1 <=? m) && (m <=? 12) && (1 <=? d) && (d <=? daysInMonth y m)
       && (h <? 24) && (mi <? 60) && (sec <? 60)
    then Some ((((daysFromCivil y m d * 24 + h) * 60 + mi) * 60 + sec) * 1000)
    else None.

End Host.

(** ** The background blur: extensions/amp-story/1.0/amp-story-background-blur.js *)

Module BackgroundBlur.

(** The timestamp that [requestAnimationFrame] passes to its callback is a
    number of milliseconds with a fraction: a rational here, with exact
    arithmetic. The doubles of the source round: [currTime - startTime] is
    the double nearest to the difference, so that a difference within
    [2^-46] below [200] is rounded to [200]. The test [elapsed < DURATION_MS]
    is the same on both for a difference of [200] or more, which stays so
    when rounded, and for one that [200 - 2^-45], the double next below
    [200], bounds ([elapsed_test_on_doubles] below): the properties of the
    test are stated for these, and those of [globalAlpha] as bounds that
    rounding keeps. *)
Definition DURATION_MS : Q := 200.

(** The rational that the double [k * 2^-1074] is. *)
Definition ofDouble (k : Z) : Q := k # Z.to_pos scale.

(** [1 - Math.pow(1 - elapsed / DURATION_MS, 2)]. *)
Definition easing (elapsed : Q) : Q :=
  (1 - (1 - elapsed / DURATION_MS) ^ 2)%Q.

(** What a frame does to the canvas, after it has set [context.globalAlpha]:
    [drawImage] of the fill element, or [fillRect]. *)
Inductive canvasCall : Type :=
  | DrawImage (globalAlpha : Q)
  | FillRect (globalAlpha : Q).

Definition globalAlpha (c : canvasCall) : Q :=
  match c with
  | DrawImage alpha => alpha
  | FillRect alpha => alpha
  end.


(** The frame drawn [elapsed] milliseconds into the animation; [fillElement]
    tells whether the fill element is truthy. *)
Definition draw (fillElement : bool) (elapsed : Q) : canvasCall :=
  if fillElement then DrawImage (easing elapsed) else FillRect (easing elapsed).

(** [if (!startTime) { startTime = currTime; }]: the [startTime] that the
    statement leaves; [undefined] and [0] are falsy. *)
Definition started (startTime : option Q) (currTime : Q) : Q :=
  match startTime with
  | None => currTime
  | Some t => if Qeq_bool t 0 then currTime else t
  end.

(** [elapsed < DURATION_MS]. *)
Definition ltb (x y : Q) : bool := negb (Qle_bool y x).

(** One call of the closure [nextFrame]: the [startTime] it leaves, and the
    canvas call of the frame when it draws one, in which case it requests
    the next frame. *)
Definition nextFrame (fillElement : bool) (startTime : option Q)
    (currTime : Q) : Q * option canvasCall :=
  let startTime := started startTime currTime in
  let elapsed := (currTime - startTime)%Q in
  if ltb elapsed DURATION_MS
  then (startTime, Some (draw fillElement elapsed))
  else (startTime, None).

(** The frames of [animate_], from the state [startTime] of the closure:
    [timestamps] are the times that the host passes to the successive
    callbacks, and a callback runs as long as the one before it has requested
    a frame. The result is the list of canvas calls. *)
Fixpoint frames (fillElement : bool) (startTime : option Q)
    (timestamps : list Q) : list canvasCall :=
  match timestamps with
  | [] => []
  | currTime :: later =>
      match nextFrame fillElement startTime currTime with
      | (startTime, Some c) => c :: frames fillElement (Some startTime) later
      | (_, None) => []
      end
  end.

(** [animate_(fillElement)] of
    extensions/amp-story/1.0/amp-story-background-blur.js: [startTime] is
    declared without a value and the first frame is requested. The result is
    what the frames draw on the visible canvas. *)
Definition animate_ (fillElement : bool) (timestamps : list Q)
  : list canvasCall :=
  frames fillElement None timestamps.

(** An [img] or [video] element, with the layout size it reports. *)
Record media : Type := Media {
  src : string;
  offsetWidth : Z;
  offsetHeight : Z
}.

Definition getSize (el : media) : Z := offsetWidth el * offsetHeight el.

(** [Array.prototype.sort(compareFn)], a stable sort: an element goes before
    the elements it does not compare greater than, and elements that compare
    equal keep their order. *)
Fixpoint insertSorted {A : Type} (compareFn : A → A → Z) (x : A)
    (sorted : list A) : list A :=
  match sorted with
  | [] => [x]
  | y :: rest =>
      if compareFn x y <=? 0 then x :: sorted
      else y :: insertSorted compareFn x rest
  end.

Definition sort {A : Type} (compareFn : A → A → Z) (l : list A) : list A :=
  foldr (insertSorted compareFn) [] l.

(** [getBackgroundElement_(pageElement)] of the version of the file that
    measures the candidates; [candidates] is what
    [pageElement.querySelectorAll('img, video')] yields, in document order,
    and [None] is the [undefined] at index [0] of an empty array. *)
Definition getBackgroundElement_ (candidates : list media) : option media :=
  head (sort (λ firstEl secondEl, getSize secondEl - getSize firstEl)
             candidates).

End BackgroundBlur.

(** ** The arithmetic of doubles *)

#[global] Opaque scale limit.
Arguments round : simpl never.
Arguments Num : simpl never.

Lemma scale_eq : scale = 2 ^ 1074.
Proof. reflexivity. Qed.

Lemma limit_eq : limit = 2 ^ 2098.
Proof. reflexivity. Qed.

Lemma roundHalfEven_divides (m shift : Z) :
  0 <= shift → m mod 2 ^ shift = 0 →
  roundHalfEven m shift * 2 ^ shift = m.
Proof.
  intros Hs Hmod. unfold roundHalfEven. rewrite Hmod.
  assert (0 < 2 ^ shift) as Hd by (apply Z.pow_pos_nonneg; lia).
  destruct (2 * 0 <? 2 ^ shift) eqn:E; [| apply Z.ltb_ge in E; lia].
  pose proof (Z.div_mod m (2 ^ shift)). lia.
Qed.

Lemma round_exact (k : Z) : representable k → round k 0 = Finite k.
Proof.
  intros (c & t & Ht & Hk & Hc & Hlim). unfold round.
  destruct (k =? 0) eqn:E0; [apply Z.eqb_eq in E0; rewrite E0; reflexivity |].
  apply Z.eqb_neq in E0.
  assert (c ≠ 0) as Hc0 by (intros ->; lia).
  set (shift := Z.max (Z.log2 (Z.abs k) + 1 - 53) 0).
  assert (0 <= shift <= t) as Hshift.
  { subst shift. split; [lia |].
    assert (Z.log2 (Z.abs k) = Z.log2 (Z.abs c) + t) as ->.
    { rewrite Hk, Z.abs_mul, (Z.abs_eq (2 ^ t)) by (apply Z.pow_nonneg; lia).
      rewrite Z.log2_mul_pow2 by lia. lia. }
    assert (Z.log2 (Z.abs c) < 53) by (apply Z.log2_lt_pow2; lia).
    lia. }
  rewrite Z.sub_0_r.
  rewrite roundHalfEven_divides; [| lia |].
  - apply Z.leb_gt in Hlim. by rewrite Hlim.
  - rewrite Hk. replace t with ((t - shift) + shift) by lia.
    rewrite Z.pow_add_r by lia. rewrite Z.mul_assoc.
    apply Z.mod_mul. apply Z.pow_nonzero; lia.
Qed.

Lemma representable_scale (z : Z) :
  Z.abs z <= 2 ^ 53 → representable (z * scale).
Proof.
  intros Hz. rewrite scale_eq.
  assert (Z.abs (z * 2 ^ 1074) < limit) as Hlim.
  { rewrite limit_eq, Z.abs_mul, (Z.abs_eq (2 ^ 1074))
      by (apply Z.pow_nonneg; lia).
    replace (2 ^ 2098) with (2 ^ 1024 * 2 ^ 1074)
      by (rewrite <- Z.pow_add_r; [reflexivity | lia..]).
    apply Z.mul_lt_mono_pos_r; [apply Z.pow_pos_nonneg; lia |].
    assert (2 ^ 53 < 2 ^ 1024) by (apply Z.pow_lt_mono_r; lia). lia. }
  destruct (Z.eq_dec (Z.abs z) (2 ^ 53)) as [E | E].
  - exists (Z.sgn z), 1127. repeat split; [lia | | | exact Hlim].
    + replace 1127 with (53 + 1074) by lia. rewrite Z.pow_add_r by lia.
      rewrite Z.mul_assoc. f_equal. rewrite <- E. symmetry.
      rewrite Z.mul_comm. apply Z.abs_sgn.
    + assert (Z.abs (Z.sgn z) <= 1) by lia.
      assert (1 < 2 ^ 53) by (apply Z.pow_gt_1; lia). lia.
  - exists z, 1074. repeat split; [lia | lia | exact Hlim].
Qed.

Lemma Num_exact (z : Z) : Z.abs z <= 2 ^ 53 → Num z = Finite (z * scale).
Proof. intros Hz. apply round_exact. by apply representable_scale. Qed.

Lemma roundHalfEven_shift (m shift j : Z) :
  0 <= shift → 0 <= j →
  roundHalfEven (m * 2 ^ j) (shift + j) = roundHalfEven m shift.
Proof.
  intros Hs Hj. unfold roundHalfEven.
  assert (0 < 2 ^ shift) as Hd by (apply Z.pow_pos_nonneg; lia).
  assert (0 < 2 ^ j) as Hp by (apply Z.pow_pos_nonneg; lia).
  rewrite Z.pow_add_r by lia.
  rewrite Z.div_mul_cancel_r by lia.
  rewrite Z.mul_mod_distr_r by lia.
  set (d := 2 ^ shift) in *. set (p := 2 ^ j) in *.
  set (r := m mod d).
  replace (2 * (r * p) <? d * p) with (2 * r <? d)
    by (destruct (2 * r <? d) eqn:E; symmetry;
        [apply Z.ltb_lt in E; apply Z.ltb_lt; nia
        | apply Z.ltb_ge in E; apply Z.ltb_ge; nia]).
  replace (d * p <? 2 * (r * p)) with (d <? 2 * r)
    by (destruct (d <? 2 * r) eqn:E; symmetry;
        [apply Z.ltb_lt in E; apply Z.ltb_lt; nia
        | apply Z.ltb_ge in E; apply Z.ltb_ge; nia]).
  reflexivity.
Qed.

Lemma round_shift (m s j : Z) :
  0 <= s → 0 <= j → round (m * 2 ^ j) (s + j) = round m s.
Proof.
  intros Hs Hj. unfold round.
  assert (0 < 2 ^ j) as Hp by (apply Z.pow_pos_nonneg; lia).
  destruct (m =? 0) eqn:E0.
  - apply Z.eqb_eq in E0. subst m. reflexivity.
  - apply Z.eqb_neq in E0.
    assert ((m * 2 ^ j =? 0) = false) as -> by (apply Z.eqb_neq; nia).
    assert (Z.log2 (Z.abs (m * 2 ^ j)) = Z.log2 (Z.abs m) + j) as ->.
    { rewrite Z.abs_mul, (Z.abs_eq (2 ^ j)) by lia.
      rewrite Z.log2_mul_pow2 by lia. lia. }
    replace (Z.max (Z.log2 (Z.abs m) + j + 1 - 53) (s + j))
      with (Z.max (Z.log2 (Z.abs m) + 1 - 53) s + j) by lia.
    rewrite roundHalfEven_shift by lia.
    replace (Z.max (Z.log2 (Z.abs m) + 1 - 53) s + j - (s + j))
      with (Z.max (Z.log2 (Z.abs m) + 1 - 53) s - s) by lia.
    reflexivity.
Qed.

Lemma add_Num (a b : Z) :
  Z.abs a <= 2 ^ 53 → Z.abs b <= 2 ^ 53 → add (Num a) (Num b) = Num (a + b).
Proof.
  intros Ha Hb. rewrite (Num_exact a), (Num_exact b) by done.
  unfold add, Num. f_equal. lia.
Qed.

Lemma mul_Num (a b : Z) :
  Z.abs a <= 2 ^ 53 → Z.abs b <= 2 ^ 53 → mul (Num a) (Num b) = Num (a * b).
Proof.
  intros Ha Hb. rewrite (Num_exact a), (Num_exact b) by done.
  unfold mul, Num.
  replace (a * scale * (b * scale)) with (a * b * scale * 2 ^ 1074)
    by (rewrite scale_eq; lia).
  apply (round_shift (a * b * scale) 0 1074); lia.
Qed.

Lemma integerValue_Num (z : Z) :
  Z.abs z <= 2 ^ 53 → integerValue (Num z) = Some z.
Proof.
  intros Hz. rewrite Num_exact by done. unfold integerValue.
  assert (0 < scale) by (rewrite scale_eq; apply Z.pow_pos_nonneg; lia).
  rewrite Z.mod_mul, Z.div_mul by lia. reflexivity.
Qed.

Lemma round_nonzero (m : Z) :
  2 ^ 53 <= Z.abs m → truthy (round m 0) = true.
Proof.
  intros Hm. unfold round.
  assert (0 < 2 ^ 53) by (apply Z.pow_pos_nonneg; lia).
  destruct (m =? 0) eqn:E0; [apply Z.eqb_eq in E0; lia |].
  set (n := Z.log2 (Z.abs m) + 1).
  assert (53 <= Z.log2 (Z.abs m)) by (apply Z.log2_le_pow2; lia).
  replace (Z.max (n - 53) 0) with (n - 53) by lia.
  rewrite Z.sub_0_r.
  set (shift := n - 53). set (d := 2 ^ shift).
  assert (0 < d) as Hd by (apply Z.pow_pos_nonneg; lia).
  assert (2 ^ 52 * d <= Z.abs m) as Hlow.
  { subst d shift n. rewrite <- Z.pow_add_r by lia.
    replace (52 + (Z.log2 (Z.abs m) + 1 - 53)) with (Z.log2 (Z.abs m)) by lia.
    apply Z.log2_spec. lia. }
  assert (0 < 2 ^ 52) by (apply Z.pow_pos_nonneg; lia).
  assert (roundHalfEven m shift ≠ 0) as Hnz.
  { unfold roundHalfEven. fold d.
    pose proof (Z.div_mod m d ltac:(lia)) as Hdm.
    pose proof (Z.mod_pos_bound m d Hd) as Hr.
    assert (m / d <> 0 ∧ m / d <> -1) as [Hq0 Hq1].
    { destruct (Z.abs_spec m) as [[Hpos Habs] | [Hneg Habs]]; nia. }
    destruct (2 * (m mod d) <? d); [exact Hq0 |].
    destruct (d <? 2 * (m mod d)); [lia |].
    destruct (Z.even (m / d)); lia. }
  destruct (limit <=? _); [reflexivity |]. cbn.
  apply negb_true_iff, Z.eqb_neq. nia.
Qed.

Lemma truthy_Num (z : Z) : truthy (Num z) = negb (z =? 0).
Proof.
  destruct (z =? 0) eqn:E.
  - apply Z.eqb_eq in E. subst z. reflexivity.
  - apply Z.eqb_neq in E. cbn [negb]. unfold Num. apply round_nonzero.
    rewrite scale_eq, Z.abs_mul, (Z.abs_eq (2 ^ 1074))
      by (apply Z.pow_nonneg; lia).
    assert (2 ^ 53 <= 2 ^ 1074) by (apply Z.pow_le_mono_r; lia).
    assert (0 < 2 ^ 1074) by (apply Z.pow_pos_nonneg; lia).
    nia.
Qed.

Lemma Num_0 : Num 0 = Finite 0.
Proof. reflexivity. Qed.

Lemma add_NaN_r (n : number) : add n NaN = NaN.
Proof. by destruct n. Qed.

Lemma mul_NaN_r (n : number) : mul n NaN = NaN.
Proof. by destruct n. Qed.

(** The falsy numbers are [NaN] and [0]. *)
Lemma truthy_false (n : number) :
  truthy n = false ↔ n = NaN ∨ n = Num 0.
Proof.
  split.
  - destruct n as [| b | k]; cbn; [by left | discriminate |].
    intros H. apply negb_false_iff, Z.eqb_eq in H. subst k. by right.
  - intros [-> | ->]; reflexivity.
Qed.

(** [1000 * x] on a finite [x] is the double nearest to the product. *)
Lemma mul_1000 (k : Z) : mul (Num 1000) (Finite k) = round (1000 * k) 0.
Proof.
  rewrite Num_exact by (assert (1000 < 2 ^ 53) by (by vm_compute); lia).
  unfold mul.
  replace (1000 * scale * k) with (1000 * k * 2 ^ 1074)
    by (rewrite scale_eq; lia).
  apply (round_shift (1000 * k) 0 1074); lia.
Qed.

Lemma mul_1000_r (k : Z) : mul (Finite k) (Num 1000) = round (1000 * k) 0.
Proof.
  rewrite Num_exact by (assert (1000 < 2 ^ 53) by (by vm_compute); lia).
  unfold mul.
  replace (k * (1000 * scale)) with (1000 * k * 2 ^ 1074)
    by (rewrite scale_eq; lia).
  apply (round_shift (1000 * k) 0 1074); lia.
Qed.

(** Adding [0] leaves a double as it is. *)
Lemma add_0_r (n : number) : isDouble n → add n (Finite 0) = n.
Proof.
  destruct n as [| b | k]; cbn; [done | done |].
  intros Hk. rewrite Z.add_0_r. by apply round_exact.
Qed.

(** The rounding of [m / 2^shift] stays within the integers that bound the
    quotient. *)
Lemma roundHalfEven_le (m shift j : Z) :
  0 <= shift → m <= j * 2 ^ shift → roundHalfEven m shift <= j.
Proof.
  intros Hs Hm. unfold roundHalfEven.
  assert (0 < 2 ^ shift) as Hd by (apply Z.pow_pos_nonneg; lia).
  pose proof (Z.div_mod m (2 ^ shift) ltac:(lia)) as Hdm.
  pose proof (Z.mod_pos_bound m (2 ^ shift) Hd) as Hr.
  set (d := 2 ^ shift) in *. set (q := m / d) in *. set (r := m mod d) in *.
  assert (q <= j) by nia.
  assert (0 < r → q + 1 <= j) by nia.
  destruct (2 * r <? d) eqn:E1; [done |].
  apply Z.ltb_ge in E1.
  destruct (d <? 2 * r); [lia |]. destruct (Z.even q); lia.
Qed.

Lemma roundHalfEven_ge (m shift j : Z) :
  0 <= shift → j * 2 ^ shift <= m → j <= roundHalfEven m shift.
Proof.
  intros Hs Hm. unfold roundHalfEven.
  assert (0 < 2 ^ shift) as Hd by (apply Z.pow_pos_nonneg; lia).
  pose proof (Z.div_mod m (2 ^ shift) ltac:(lia)) as Hdm.
  pose proof (Z.mod_pos_bound m (2 ^ shift) Hd) as Hr.
  set (d := 2 ^ shift) in *. set (q := m / d) in *. set (r := m mod d) in *.
  assert (j <= q) by nia.
  destruct (2 * r <? d); [done |].
  destruct (d <? 2 * r); [lia |]. destruct (Z.even q); lia.
Qed.

(** The magnitude of [m] and the power of two at its leading bit. *)
Lemma log2_abs_bounds (m : Z) :
  m ≠ 0 → 2 ^ Z.log2 (Z.abs m) <= Z.abs m < 2 ^ (Z.log2 (Z.abs m) + 1).
Proof.
  intros Hm. pose proof (Z.log2_spec (Z.abs m) ltac:(lia)) as H.
  by rewrite <- Z.add_1_r in H.
Qed.

(** A double that bounds a number bounds the double nearest to it. *)
Lemma round_le (m p : Z) :
  representable p → m <= p →
  match round m 0 with
  | Finite k => k <= p
  | Infinity negative => negative = true
  | NaN => False
  end.
Proof.
  intros (c & t & Ht & Hp & Hc & Hlimit) Hm. unfold round.
  destruct (m =? 0) eqn:E0; [apply Z.eqb_eq in E0; lia |].
  apply Z.eqb_neq in E0. cbv zeta.
  pose proof (log2_abs_bounds m E0) as [Hlow Hhigh].
  pose proof (Z.log2_nonneg (Z.abs m)) as Hlog.
  set (n := Z.log2 (Z.abs m) + 1) in *.
  replace (Z.log2 (Z.abs m)) with (n - 1) in * by lia.
  set (shift := Z.max (n - 53) 0).
  assert (0 <= shift) as Hshift by lia.
  rewrite Z.sub_0_r.
  assert (0 < 2 ^ shift) as Hd by (apply Z.pow_pos_nonneg; lia).
  assert (roundHalfEven m shift * 2 ^ shift <= p) as Hk.
  { destruct (Z_le_gt_dec shift t) as [Hst | Hst].
    - assert (p = c * 2 ^ (t - shift) * 2 ^ shift) as Hmult.
      { rewrite <- Z.mul_assoc, <- Z.pow_add_r by lia.
        by replace (t - shift + shift) with t by lia. }
      pose proof (roundHalfEven_le m shift (c * 2 ^ (t - shift)) Hshift
                    ltac:(lia)).
      nia.
    - assert (shift = n - 53) as Hsn by lia.
      assert (Z.abs p < 2 ^ (n - 1)) as Hsmall.
      { rewrite Hp, Z.abs_mul, (Z.abs_eq (2 ^ t)) by (apply Z.pow_nonneg; lia).
        assert (2 ^ (n - 1) = 2 ^ 53 * 2 ^ (n - 54)) as ->
          by (rewrite <- Z.pow_add_r by lia; f_equal; lia).
        assert (2 ^ t <= 2 ^ (n - 54)) by (apply Z.pow_le_mono_r; lia).
        assert (0 < 2 ^ t) by (apply Z.pow_pos_nonneg; lia).
        nia. }
      assert (m <= - 2 ^ (n - 1)) as Hneg by lia.
      assert (- 2 ^ (n - 1) = - 2 ^ 52 * 2 ^ shift) as Hmult.
      { rewrite Z.mul_opp_l, <- Z.pow_add_r by lia. do 2 f_equal. lia. }
      pose proof (roundHalfEven_le m shift (- 2 ^ 52) Hshift ltac:(lia)).
      nia. }
  set (k := roundHalfEven m shift * 2 ^ shift) in *.
  destruct (limit <=? Z.abs k) eqn:El; [| exact Hk].
  apply Z.leb_le in El. apply Z.ltb_lt. lia.
Qed.

(** The same from below. *)
Lemma round_ge (m p : Z) :
  representable p → p <= m →
  match round m 0 with
  | Finite k => p <= k
  | Infinity negative => negative = false
  | NaN => False
  end.
Proof.
  intros (c & t & Ht & Hp & Hc & Hlimit) Hm. unfold round.
  destruct (m =? 0) eqn:E0; [apply Z.eqb_eq in E0; lia |].
  apply Z.eqb_neq in E0. cbv zeta.
  pose proof (log2_abs_bounds m E0) as [Hlow Hhigh].
  pose proof (Z.log2_nonneg (Z.abs m)) as Hlog.
  set (n := Z.log2 (Z.abs m) + 1) in *.
  replace (Z.log2 (Z.abs m)) with (n - 1) in * by lia.
  set (shift := Z.max (n - 53) 0).
  assert (0 <= shift) as Hshift by lia.
  rewrite Z.sub_0_r.
  assert (0 < 2 ^ shift) as Hd by (apply Z.pow_pos_nonneg; lia).
  assert (p <= roundHalfEven m shift * 2 ^ shift) as Hk.
  { destruct (Z_le_gt_dec shift t) as [Hst | Hst].
    - assert (p = c * 2 ^ (t - shift) * 2 ^ shift) as Hmult.
      { rewrite <- Z.mul_assoc, <- Z.pow_add_r by lia.
        by replace (t - shift + shift) with t by lia. }
      pose proof (roundHalfEven_ge m shift (c * 2 ^ (t - shift)) Hshift
                    ltac:(lia)).
      nia.
    - assert (shift = n - 53) as Hsn by lia.
      assert (Z.abs p < 2 ^ (n - 1)) as Hsmall.
      { rewrite Hp, Z.abs_mul, (Z.abs_eq (2 ^ t)) by (apply Z.pow_nonneg; lia).
        assert (2 ^ (n - 1) = 2 ^ 53 * 2 ^ (n - 54)) as ->
          by (rewrite <- Z.pow_add_r by lia; f_equal; lia).
        assert (2 ^ t <= 2 ^ (n - 54)) by (apply Z.pow_le_mono_r; lia).
        assert (0 < 2 ^ t) by (apply Z.pow_pos_nonneg; lia).
        nia. }
      assert (2 ^ (n - 1) <= m) as Hpos by lia.
      assert (2 ^ (n - 1) = 2 ^ 52 * 2 ^ shift) as Hmult.
      { rewrite <- Z.pow_add_r by lia. f_equal. lia. }
      pose proof (roundHalfEven_ge m shift (2 ^ 52) Hshift ltac:(lia)).
      nia. }
  set (k := roundHalfEven m shift * 2 ^ shift) in *.
  destruct (limit <=? Z.abs k) eqn:El; [| exact Hk].
  apply Z.leb_le in El. apply Z.ltb_ge. lia.
Qed.

(** ** Evaluation lemmas *)

Ltac run_unfold :=
  unfold mbind, mret, run_bind, run_ret, throw, getAttribute in *;
  cbn [fst snd] in *.

Lemma bind_returns {A B : Type} (a : A) (r : list string) (f : A → run B) :
  (Returns a, r) ≫= f = ((f a).1, (r ++ (f a).2)%list).
Proof. reflexivity. Qed.

Lemma bind_throws {A B : Type} (e : error) (r : list string) (f : A → run B) :
  (Throws e, r) ≫= f = (Throws e, r).
Proof. reflexivity. Qed.

Lemma bind_protoCall {A B : Type} (member arg : string) (r : list string)
    (f : A → run B) :
  (ProtoCall member arg, r) ≫= f = (ProtoCall member arg, r).
Proof. reflexivity. Qed.

Lemma dateAttrParsers_attrName (a : attr) :
  dateAttrParsers !! attrName a = Some a.
Proof. destruct a; reflexivity. Qed.

Lemma dateAttrParsers_lookup (name : string) (a : attr) :
  dateAttrParsers !! name = Some a → name = attrName a.
Proof.
  unfold dateAttrParsers. intros H.
  repeat (apply lookup_insert_Some in H as [[<- <-] | [_ H]]; [reflexivity |]).
  apply lookup_singleton_Some in H as [<- <-]. reflexivity.
Qed.

Lemma recognized_five (name : string) :
  recognized name ↔
  name ∈ ["datetime"; "end-date"; "timeleft-ms"; "timestamp-ms";
          "timestamp-seconds"].
Proof.
  split.
  - intros [a Ha]. apply dateAttrParsers_lookup in Ha as ->.
    destruct a; cbn; set_solver.
  - intros H. repeat (apply elem_of_cons in H as [-> | H]; [by eexists |]).
    by apply elem_of_nil in H.
Qed.

Lemma lookupParser_own (name : string) (a : attr) :
  dateAttrParsers !! name = Some a → lookupParser name = Some (Own a).
Proof. unfold lookupParser. by intros ->. Qed.

Lemma lookupParser_inherited (name : string) :
  name ∈ objectPrototype → lookupParser name = Some (Inherited name).
Proof.
  intros H. unfold objectPrototype in H.
  repeat (apply elem_of_cons in H as [-> | H]; [reflexivity |]).
  by apply elem_of_nil in H.
Qed.

Lemma lookupParser_undefined (name : string) :
  ¬ recognized name → name ∉ objectPrototype → lookupParser name = None.
Proof.
  intros Hr Hp. unfold lookupParser.
  destruct (dateAttrParsers !! name) as [a |] eqn:E.
  - exfalso. apply Hr. by eexists.
  - by rewrite bool_decide_eq_false_2.
Qed.

Section Evaluation.

Variable Number : string → number.
Variable parseDate : string → option Z.
Variable now : Z.

#[local] Abbreviation parser := (parser Number parseDate now).
#[local] Abbreviation call := (call Number parseDate now).
#[local] Abbreviation scan := (scan Number parseDate now).
#[local] Abbreviation parseEpoch := (parseEpoch Number parseDate now).
#[local] Abbreviation parseDateAttrs := (parseDateAttrs Number parseDate now).

Lemma validate_nil : validate [] = (Returns [], []).
Proof. reflexivity. Qed.

Lemma validate_cons (name : string) (dateAttrs : list string) :
  validate (name :: dateAttrs) =
  match lookupParser name with
  | None => (Throws (UnknownAttributeError name), [])
  | Some p =>
      match (validate dateAttrs).1 with
      | Returns parsers => (Returns (p :: parsers), (validate dateAttrs).2)
      | Throws e => (Throws e, (validate dateAttrs).2)
      | ProtoCall member arg => (ProtoCall member arg, (validate dateAttrs).2)
      end
  end.
Proof.
  unfold validate. cbn [mapM].
  destruct (lookupParser name) as [p |]; [| reflexivity].
  destruct (mapM _ dateAttrs) as [[parsers | e | member arg] r];
    unfold devAssert; run_unfold; cbn; by rewrite ?app_nil_r.
Qed.

(** Validation reads no attribute. *)
Lemma validate_reads (dateAttrs : list string) : (validate dateAttrs).2 = [].
Proof.
  induction dateAttrs as [| name dateAttrs IH]; [reflexivity |].
  rewrite validate_cons. destruct (lookupParser name); [| reflexivity].
  by destruct (validate dateAttrs).1.
Qed.

(** Validation fails at the first name whose lookup is [undefined], whatever
    follows it. *)
Lemma validate_undefined (pre post : list string) (name : string) :
  Forall (λ n, is_Some (lookupParser n)) pre →
  lookupParser name = None →
  validate (pre ++ name :: post) = (Throws (UnknownAttributeError name), []).
Proof.
  intros Hpre Hname. induction Hpre as [| n pre [p Hp] _ IH]; cbn [app].
  - rewrite validate_cons, Hname. reflexivity.
  - rewrite validate_cons, Hp, IH. reflexivity.
Qed.

(** Validation succeeds when every lookup does, with one entry per name. *)
Lemma validate_defined (dateAttrs : list string) (parsers : list entry) :
  Forall2 (λ n p, lookupParser n = Some p) dateAttrs parsers →
  validate dateAttrs = (Returns parsers, []).
Proof.
  induction 1 as [| n p dateAttrs parsers Hp _ IH]; [reflexivity |].
  rewrite validate_cons, Hp, IH. reflexivity.
Qed.

Lemma validate_recognized (dateAttrs : list string) :
  Forall recognized dateAttrs →
  ∃ parsers,
    validate dateAttrs = (Returns parsers, []) ∧
    Forall2 (λ n p, ∃ a, dateAttrParsers !! n = Some a ∧ p = Own a)
            dateAttrs parsers.
Proof.
  induction 1 as [| n dateAttrs [a Ha] _ (parsers & Hv & Hall)].
  - exists []. split; [reflexivity | constructor].
  - exists (Own a :: parsers). split.
    + rewrite validate_cons, (lookupParser_own _ _ Ha), Hv. reflexivity.
    + constructor; [by exists a | done].
Qed.

Lemma scan_cons (element : gmap string string) (name : string)
    (dateAttrs : list string) (p : entry) (parsers : list entry) :
  scan element (name :: dateAttrs) (p :: parsers) =
  if truthyAttr (element !! name)
  then ((x ← call p (default "" (element !! name)); mret (Some x)).1,
        name :: (x ← call p (default "" (element !! name)); mret (Some x)).2)
  else ((scan element dateAttrs parsers).1,
        name :: (scan element dateAttrs parsers).2).
Proof.
  cbn [scan]. unfold getAttribute. rewrite bind_returns.
  destruct (element !! name) as [v |]; cbn [truthyAttr default];
    [destruct (String.eqb v "") |]; reflexivity.
Qed.

(** The loop reads the element only at the names it is given. *)
Lemma scan_agree (element1 element2 : gmap string string)
    (dateAttrs : list string) (parsers : list entry) :
  (∀ name, name ∈ dateAttrs → element1 !! name = element2 !! name) →
  scan element1 dateAttrs parsers = scan element2 dateAttrs parsers.
Proof.
  revert parsers.
  induction dateAttrs as [| name dateAttrs IH]; intros parsers H;
    [reflexivity |].
  destruct parsers as [| p parsers]; [reflexivity |].
  rewrite !scan_cons, (H name) by set_solver.
  rewrite IH; [reflexivity |]. intros n Hn. apply H. set_solver.
Qed.

Lemma parseEpoch_agree (element1 element2 : gmap string string)
    (dateAttrs : list string) :
  (∀ name, name ∈ dateAttrs → element1 !! name = element2 !! name) →
  parseEpoch element1 dateAttrs = parseEpoch element2 dateAttrs.
Proof.
  intros H. unfold parseEpoch.
  destruct (validate dateAttrs) as [[parsers | e | member arg] r];
    [| reflexivity | reflexivity].
  rewrite !bind_returns, (scan_agree element1 element2); done.
Qed.

(** A parser reads no attribute, and never leaves the date parsers. *)
Lemma parser_cases (a : attr) (value : string) :
  (∃ n, parser a value = (Returns n, [])) ∨
  parser a value = (Throws (InvalidDateError value), []).
Proof.
  destruct a; cbn; try (left; eexists; reflexivity);
    (destruct (parseDate value) as [z |]; cbn;
     [destruct (truthy (Num z)); [left; eexists; reflexivity | by right]
     | by right]).
Qed.

(** No candidate is present and non-empty: the loop reads every name and
    returns [null]. *)
Lemma scan_absent (element : gmap string string) (dateAttrs : list string)
    (parsers : list entry) :
  length dateAttrs = length parsers →
  Forall (λ name, truthyAttr (element !! name) = false) dateAttrs →
  scan element dateAttrs parsers = (Returns None, dateAttrs).
Proof.
  intros Hlen Hall. revert parsers Hlen.
  induction Hall as [| name dateAttrs Hname _ IH]; intros parsers Hlen.
  - by destruct parsers.
  - destruct parsers as [| p parsers]; [discriminate |].
    rewrite scan_cons, Hname, IH by (cbn in Hlen; lia). reflexivity.
Qed.

(** The loop stops at the first name whose value is truthy and calls the
    parser at the same index. *)
Lemma scan_first (element : gmap string string)
    (pre post : list string) (name value : string)
    (parsersPre parsersPost : list entry) (p : entry) :
  length pre = length parsersPre →
  Forall (λ n, truthyAttr (element !! n) = false) pre →
  element !! name = Some value →
  value ≠ "" →
  scan element (pre ++ name :: post) (parsersPre ++ p :: parsersPost) =
  ((epoch ← call p value; mret (Some epoch)).1,
   (pre ++ name :: (epoch ← call p value; mret (Some epoch)).2)%list).
Proof.
  intros Hlen Hall Hname Hvalue. revert parsersPre Hlen.
  induction Hall as [| n pre Hn _ IH]; intros parsersPre Hlen.
  - destruct parsersPre; [| discriminate]. cbn [app].
    rewrite scan_cons, Hname. cbn [truthyAttr default].
    apply String.eqb_neq in Hvalue. rewrite Hvalue. reflexivity.
  - destruct parsersPre as [| q parsersPre]; [discriminate |]. cbn [app].
    rewrite scan_cons, Hn, IH by (cbn in Hlen; lia). reflexivity.
Qed.

(** A list with a truthy candidate splits at the first one. *)
Lemma first_truthy (element : gmap string string) (dateAttrs : list string) :
  ¬ Forall (λ n, truthyAttr (element !! n) = false) dateAttrs →
  ∃ pre name value post,
    dateAttrs = (pre ++ name :: post)%list ∧
    Forall (λ n, truthyAttr (element !! n) = false) pre ∧
    element !! name = Some value ∧ value ≠ "".
Proof.
  induction dateAttrs as [| n dateAttrs IH]; intros H.
  - destruct H. constructor.
  - destruct (truthyAttr (element !! n)) eqn:En.
    + destruct (element !! n) as [v |] eqn:Ev; [| discriminate].
      exists [], n, v, dateAttrs. repeat split; [constructor | done |].
      cbn in En. intros ->. discriminate.
    + destruct IH as (pre & name & value & post & -> & Hpre & Hname & Hv).
      { intros Hall. apply H. by constructor. }
      exists (n :: pre), name, value, post. repeat split; try done.
      by constructor.
Qed.

(** [parseDateAttrs] from the outcome of the resolver. *)
Lemma parseDateAttrs_eq (element : gmap string string)
    (dateAttrs : list string) :
  parseDateAttrs element dateAttrs =
  match (parseEpoch element dateAttrs).1 with
  | Returns (Some epoch) =>
      if truthy epoch
      then (Returns
              (add epoch
                 (mul (orZero (toNumber Number (element !! "offset-seconds")))
                      (Num 1000))),
            ((parseEpoch element dateAttrs).2 ++ ["offset-seconds"])%list)
      else (Throws (MissingAttributeError dateAttrs),
            (parseEpoch element dateAttrs).2)
  | Returns None =>
      (Throws (MissingAttributeError dateAttrs),
       (parseEpoch element dateAttrs).2)
  | Throws e => (Throws e, (parseEpoch element dateAttrs).2)
  | ProtoCall member arg =>
      (ProtoCall member arg, (parseEpoch element dateAttrs).2)
  end.
Proof.
  unfold parseDateAttrs.
  destruct (parseEpoch element dateAttrs) as [[[epoch |] | e | member arg] r];
    [destruct (truthy epoch) eqn:E | | |];
    unfold userAssert; run_unfold; rewrite ?E; cbn; by rewrite ?app_nil_r.
Qed.

(** The resolver on recognized names, when no candidate is present. *)
Lemma parseEpoch_absent (element : gmap string string)
    (dateAttrs : list string) :
  Forall recognized dateAttrs →
  Forall (λ name, truthyAttr (element !! name) = false) dateAttrs →
  parseEpoch element dateAttrs = (Returns None, dateAttrs).
Proof.
  intros Hrec Hall. unfold parseEpoch.
  destruct (validate_recognized _ Hrec) as (parsers & -> & Hps).
  rewrite bind_returns, scan_absent; [reflexivity | | done].
  by eapply Forall2_length.
Qed.

(** The resolver on recognized names, at the first present candidate. *)
Lemma parseEpoch_first (element : gmap string string)
    (pre post : list string) (name value : string) :
  Forall recognized (pre ++ name :: post) →
  Forall (λ n, truthyAttr (element !! n) = false) pre →
  element !! name = Some value →
  value ≠ "" →
  ∃ a, dateAttrParsers !! name = Some a ∧
       parseEpoch element (pre ++ name :: post) =
       ((epoch ← parser a value; mret (Some epoch)).1,
        (pre ++ [name])%list).
Proof.
  intros Hrec Hpre Hname Hvalue. unfold parseEpoch.
  destruct (validate_recognized _ Hrec) as (parsers & -> & Hps).
  apply Forall2_app_inv_l in Hps as (psPre & psRest & HpsPre & HpsRest & ->).
  apply Forall2_cons_inv_l in HpsRest as (p & psPost & (a & Ha & ->) & _ & ->).
  exists a. split; [done |].
  rewrite bind_returns, (scan_first element pre post name value); try done.
  - cbn [app fst snd call].
    destruct (parser_cases a value) as [[n ->] | ->]; reflexivity.
  - by eapply Forall2_length.
Qed.

(** The same, with the key of a given parser as the first present
    candidate. *)
Lemma parseEpoch_first_own (element : gmap string string)
    (pre post : list string) (a : attr) (value : string) :
  Forall recognized (pre ++ attrName a :: post) →
  Forall (λ n, truthyAttr (element !! n) = false) pre →
  element !! attrName a = Some value →
  value ≠ "" →
  parseEpoch element (pre ++ attrName a :: post) =
  ((epoch ← parser a value; mret (Some epoch)).1,
   (pre ++ [attrName a])%list).
Proof.
  intros Hrec Hpre Hattr Hvalue.
  destruct (parseEpoch_first element pre post (attrName a) value)
    as (a' & Ha' & E); try done.
  rewrite dateAttrParsers_attrName in Ha'. by injection Ha' as <-.
Qed.

(** A list with a name whose lookup is [undefined] splits at the first such
    name. *)
Lemma first_undefined (dateAttrs : list string) :
  Exists (λ n, lookupParser n = None) dateAttrs →
  ∃ pre name post,
    dateAttrs = (pre ++ name :: post)%list ∧
    Forall (λ n, is_Some (lookupParser n)) pre ∧
    lookupParser name = None.
Proof.
  induction dateAttrs as [| n dateAttrs IH]; intros H.
  - by apply Exists_nil in H.
  - destruct (lookupParser n) as [p |] eqn:En.
    + apply Exists_cons in H as [H | H]; [congruence |].
      destruct (IH H) as (pre & name & post & -> & Hpre & Hname).
      exists (n :: pre), name, post. repeat split; [| done].
      constructor; [by eexists | done].
    + exists [], n, dateAttrs. repeat split; [constructor | done].
Qed.

(** A resolved epoch that is truthy is returned with the offset added, after
    [offset-seconds] has been read. *)
Lemma parseDateAttrs_offset (element : gmap string string)
    (dateAttrs : list string) (epoch : number) :
  (parseEpoch element dateAttrs).1 = Returns (Some epoch) →
  truthy epoch = true →
  parseDateAttrs element dateAttrs =
  (Returns (add epoch
              (offsetSeconds Number (element !! "offset-seconds"))),
   ((parseEpoch element dateAttrs).2 ++ ["offset-seconds"])%list).
Proof.
  intros E Ht. rewrite parseDateAttrs_eq, E, Ht. reflexivity.
Qed.

(** The same on integers up to [2^53] in magnitude: the sum is the double of
    the integer sum. *)
Lemma parseDateAttrs_offset_integer (element : gmap string string)
    (dateAttrs : list string) (epoch seconds : Z) :
  (parseEpoch element dateAttrs).1 = Returns (Some (Num epoch)) →
  epoch ≠ 0 →
  orZero (toNumber Number (element !! "offset-seconds")) = Num seconds →
  Z.abs epoch <= 2 ^ 53 →
  Z.abs (seconds * 1000) <= 2 ^ 53 →
  parseDateAttrs element dateAttrs =
  (Returns (Num (epoch + seconds * 1000)),
   ((parseEpoch element dateAttrs).2 ++ ["offset-seconds"])%list).
Proof.
  intros E Hz Hoff Hepoch Hms.
  rewrite (parseDateAttrs_offset element dateAttrs (Num epoch) E)
    by (rewrite truthy_Num; by apply negb_true_iff, Z.eqb_neq).
  unfold offsetSeconds. rewrite Hoff.
  assert (1000 < 2 ^ 53) by (by vm_compute).
  rewrite mul_Num, add_Num by lia. reflexivity.
Qed.

(** A missing [offset-seconds], or one whose value is not numeric, is the
    offset [0]. *)
Lemma offsetSeconds_default (offsetAttr : option string) :
  offsetAttr = None ∨ (∃ v, offsetAttr = Some v ∧ Number v = NaN) →
  offsetSeconds Number offsetAttr = Finite 0.
Proof.
  intros [-> | (v & -> & Hv)]; unfold offsetSeconds, toNumber;
    rewrite ?Hv; reflexivity.
Qed.

(** A resolved value that is falsy, [null], [0] or [NaN], fails the
    assertion of [parseDateAttrs] before [offset-seconds] is read. *)
Lemma parseDateAttrs_falsy (element : gmap string string)
    (dateAttrs : list string) (resolved : option number) :
  (parseEpoch element dateAttrs).1 = Returns resolved →
  resolved = None ∨ resolved = Some (Num 0) ∨ resolved = Some NaN →
  parseDateAttrs element dateAttrs =
  (Throws (MissingAttributeError dateAttrs), (parseEpoch element dateAttrs).2).
Proof.
  intros E H. rewrite parseDateAttrs_eq, E.
  destruct H as [-> | [-> | ->]]; reflexivity.
Qed.

End Evaluation.

(** ** The claims of the specification *)

Section Claims.

Variable Number : string → number.
Variable parseDate : string → option Z.
Variable now : Z.

#[local] Abbreviation parser := (parser Number parseDate now).
#[local] Abbreviation parseEpoch := (parseEpoch Number parseDate now).
#[local] Abbreviation parseDateAttrs := (parseDateAttrs Number parseDate now).

(** Where validation does what its comment says: a list with a name that is
    neither a key of the registry nor a property of its prototype fails the
    whole call with [UnknownAttributeError] on the first such name, before
    any attribute is read, whatever the element holds. *)
Lemma parseDateAttrs_unknown_attribute (element : gmap string string)
    (dateAttrs : list string) :
  Exists (λ n, (¬ recognized n) ∧ n ∉ objectPrototype) dateAttrs →
  ∃ name,
    name ∈ dateAttrs ∧ ¬ recognized name ∧ (name ∉ objectPrototype) ∧
    parseEpoch element dateAttrs = (Throws (UnknownAttributeError name), []) ∧
    parseDateAttrs element dateAttrs =
      (Throws (UnknownAttributeError name), []).
Proof.
  intros H.
  assert (Exists (λ n, lookupParser n = None) dateAttrs) as Hex.
  { eapply Exists_impl; [exact H |]. intros n [Hr Hp].
    by apply lookupParser_undefined. }
  apply first_undefined in Hex as (pre & name & post & -> & Hpre & Hname).
  assert (parseEpoch element (pre ++ name :: post) =
          (Throws (UnknownAttributeError name), [])) as E.
  { unfold parseEpoch. by rewrite (validate_undefined pre post name Hpre). }
  exists name. repeat split.
  - set_solver.
  - intros [a Ha]. by rewrite (lookupParser_own _ _ Ha) in Hname.
  - intros Hp. by rewrite (lookupParser_inherited _ Hp) in Hname.
  - exact E.
  - rewrite parseDateAttrs_eq, E. reflexivity.
Qed.

(** C1. The claim has every name outside the five keys fail with
    [UnknownAttributeError] before any attribute is read. The registry is an
    object literal, so a name of a property it inherits from
    [Object.prototype] passes validation: when the element has no such
    attribute, the resolver reads that attribute and returns [null], and
    [parseDateAttrs] fails with [MissingAttributeError] instead. *)
Theorem C1_inherited_name_is_not_rejected (element : gmap string string)
    (member : string) :
  member ∈ objectPrototype →
  element !! member = None →
  ¬ recognized member ∧
  validate [member] = (Returns [Inherited member], []) ∧
  parseEpoch element [member] = (Returns None, [member]) ∧
  parseDateAttrs element [member] =
    (Throws (MissingAttributeError [member]), [member]).
Proof.
  intros Hm Habsent.
  assert (¬ recognized member) as Hr.
  { intros Hr. apply recognized_five in Hr. unfold objectPrototype in Hm.
    repeat (apply elem_of_cons in Hm as [-> | Hm];
            [repeat (apply elem_of_cons in Hr as [Hr | Hr];
                     [discriminate |]);
             by apply elem_of_nil in Hr |]).
    by apply elem_of_nil in Hm. }
  assert (validate [member] = (Returns [Inherited member], [])) as Hv.
  { apply validate_defined. repeat constructor.
    by apply lookupParser_inherited. }
  assert (parseEpoch element [member] = (Returns None, [member])) as E.
  { unfold parseEpoch. rewrite Hv, bind_returns.
    rewrite scan_absent; [reflexivity | reflexivity |].
    repeat constructor. by rewrite Habsent. }
  repeat split; try done. rewrite parseDateAttrs_eq, E. reflexivity.
Qed.

(** On recognized names the resolver returns, or it fails with
    [InvalidDateError]. *)
Lemma parseEpoch_recognized_cases (element : gmap string string)
    (dateAttrs : list string) :
  Forall recognized dateAttrs →
  (∃ resolved, (parseEpoch element dateAttrs).1 = Returns resolved) ∨
  (∃ value, (parseEpoch element dateAttrs).1 = Throws (InvalidDateError value)).
Proof.
  intros Hrec.
  destruct (decide (Forall (λ n, truthyAttr (element !! n) = false) dateAttrs))
    as [Habsent | Hpresent].
  - left. exists None. by rewrite parseEpoch_absent.
  - apply first_truthy in Hpresent
      as (pre & name & value & post & -> & Hpre & Hname & Hvalue).
    destruct (parseEpoch_first Number parseDate now element pre post name
                value Hrec Hpre Hname Hvalue) as (a & _ & ->).
    destruct (parser_cases Number parseDate now a value) as [[n ->] | ->];
      [left | right]; by eexists.
Qed.

(** C2, as amended. On recognized names the resolver returns [null] exactly
    when no candidate attribute is present and non-empty. [parseDateAttrs]
    fails with [MissingAttributeError] on the requested names when the
    resolver returns [null] or [NaN], and only when it returns [null], [NaN]
    or [0] (at [0] it fails as well). When the resolver returns any other
    number, [parseDateAttrs] reads [offset-seconds] and returns that number
    plus [1000] times the offset, in the arithmetic of doubles. *)
Theorem C2_missing_attribute (element : gmap string string)
    (dateAttrs : list string) :
  Forall recognized dateAttrs →
  ((parseEpoch element dateAttrs).1 = Returns None ↔
   Forall (λ name, truthyAttr (element !! name) = false) dateAttrs) ∧
  ((parseDateAttrs element dateAttrs).1 =
     Throws (MissingAttributeError dateAttrs) ↔
   (parseEpoch element dateAttrs).1 = Returns None ∨
   (parseEpoch element dateAttrs).1 = Returns (Some NaN) ∨
   (parseEpoch element dateAttrs).1 = Returns (Some (Num 0))) ∧
  (∀ epoch,
     (parseEpoch element dateAttrs).1 = Returns (Some epoch) →
     epoch ≠ NaN → epoch ≠ Num 0 →
     parseDateAttrs element dateAttrs =
       (Returns
          (add epoch
             (mul (orZero (toNumber Number (element !! "offset-seconds")))
                  (Num 1000))),
        ((parseEpoch element dateAttrs).2 ++ ["offset-seconds"])%list)).
Proof.
  intros Hrec. split; [| split].
  - split.
    + intros E.
      destruct (decide (Forall (λ name, truthyAttr (element !! name) = false)
                               dateAttrs)) as [H | H]; [exact H | exfalso].
      apply first_truthy in H
        as (pre & name & value & post & -> & Hpre & Hname & Hvalue).
      destruct (parseEpoch_first Number parseDate now element pre post name
                  value Hrec Hpre Hname Hvalue) as (a & _ & Ha).
      rewrite Ha in E. cbn [fst] in E.
      destruct (parser_cases Number parseDate now a value) as [[n Hn] | Hn];
        rewrite Hn in E; discriminate.
    + intros H. by rewrite parseEpoch_absent.
  - rewrite parseDateAttrs_eq. split.
    + destruct (parseEpoch_recognized_cases element dateAttrs Hrec)
        as [[resolved E] | [value E]]; rewrite E.
      * destruct resolved as [epoch |]; [| by left].
        destruct (truthy epoch) eqn:Ht; cbn [fst]; [discriminate |].
        apply truthy_false in Ht as [-> | ->]; tauto.
      * cbn [fst]. discriminate.
    + intros [E | [E | E]]; rewrite E; reflexivity.
  - intros epoch E HNaN Hzero.
    apply parseDateAttrs_offset; [exact E |].
    destruct (truthy epoch) eqn:Ht; [reflexivity |].
    apply truthy_false in Ht. tauto.
Qed.

(** C3. On recognized names of which one has a present, non-empty value, the
    resolver reads the names up to the first such one and returns what that
    name's parser makes of its value. With names [timestamp-ms] and
    [datetime] and both attributes present, the result is the number of the
    [timestamp-ms] value, whatever the [datetime] value is. *)
Theorem C3_first_present_name_wins :
  (∀ (element : gmap string string) (pre post : list string)
     (name value : string),
     Forall recognized (pre ++ name :: post) →
     Forall (λ n, truthyAttr (element !! n) = false) pre →
     element !! name = Some value →
     value ≠ "" →
     ∃ a, dateAttrParsers !! name = Some a ∧
          parseEpoch element (pre ++ name :: post) =
          ((epoch ← parser a value; mret (Some epoch)).1,
           (pre ++ [name])%list)) ∧
  (∀ (element : gmap string string) (ms datetime : string),
     element !! "timestamp-ms" = Some ms →
     ms ≠ "" →
     element !! "datetime" = Some datetime →
     parseEpoch element ["timestamp-ms"; "datetime"] =
     (Returns (Some (Number ms)), ["timestamp-ms"])).
Proof.
  split.
  - intros element pre post name value. apply parseEpoch_first.
  - intros element ms datetime Hms Hne _.
    apply (parseEpoch_first_own Number parseDate now element [] ["datetime"]
             TimestampMs ms); try done.
    repeat constructor; by eexists.
Qed.

(** C4, as amended. A value that [Number] turns into [NaN], given for
    [timeleft-ms], [timestamp-ms] or [timestamp-seconds] as the first present
    candidate, raises nothing in the parser nor in the resolver, which return
    [NaN]; the enclosing [parseDateAttrs] does not return it: its assertion on
    the resolved epoch takes the falsy [NaN] as no epoch and fails with
    [MissingAttributeError]. *)
Theorem C4_nan_is_returned_by_the_parser_only (element : gmap string string)
    (pre post : list string) (a : attr) (value : string) :
  a ∈ [TimeleftMs; TimestampMs; TimestampSeconds] →
  Number value = NaN →
  Forall recognized (pre ++ attrName a :: post) →
  Forall (λ n, truthyAttr (element !! n) = false) pre →
  element !! attrName a = Some value →
  value ≠ "" →
  parser a value = (Returns NaN, []) ∧
  parseEpoch element (pre ++ attrName a :: post) =
    (Returns (Some NaN), (pre ++ [attrName a])%list) ∧
  parseDateAttrs element (pre ++ attrName a :: post) =
    (Throws (MissingAttributeError (pre ++ attrName a :: post)),
     (pre ++ [attrName a])%list).
Proof.
  intros Ha HNaN Hrec Hpre Hattr Hvalue.
  assert (parser a value = (Returns NaN, [])) as Hp.
  { repeat (apply elem_of_cons in Ha as [-> | Ha];
              [cbn; by rewrite HNaN, ?add_NaN_r, ?mul_NaN_r |]).
    by apply elem_of_nil in Ha. }
  assert (parseEpoch element (pre ++ attrName a :: post) =
          (Returns (Some NaN), (pre ++ [attrName a])%list)) as E.
  { rewrite parseEpoch_first_own with (value := value) by done.
    by rewrite Hp. }
  repeat split; try done.
  rewrite (parseDateAttrs_falsy _ _ _ _ _ (Some NaN)), E; by rewrite ?E; auto.
Qed.

(** C5. The claim has [parseDateAttrs] return [E + 1000 * s] for every
    resolved epoch [E]. At the epoch [0], which the resolver returns for
    [timestamp-ms] of value ["0"], the assertion on the resolved epoch fails:
    the call raises [MissingAttributeError] although the attribute is
    present, and [offset-seconds] is not read. *)
Theorem C5_epoch_zero_is_rejected (element : gmap string string) :
  Number "0" = Num 0 →
  element !! "timestamp-ms" = Some "0" →
  parseEpoch element ["timestamp-ms"] =
    (Returns (Some (Num 0)), ["timestamp-ms"]) ∧
  parseDateAttrs element ["timestamp-ms"] =
    (Throws (MissingAttributeError ["timestamp-ms"]), ["timestamp-ms"]).
Proof.
  intros Hzero Hattr.
  assert (parseEpoch element ["timestamp-ms"] =
          (Returns (Some (Num 0)), ["timestamp-ms"])) as E.
  { pose proof (parseEpoch_first_own Number parseDate now element [] []
                  TimestampMs "0") as E.
    cbn [attrName app] in E. rewrite E; try done.
    - cbn. by rewrite Hzero.
    - repeat constructor; by eexists. }
  split; [exact E |].
  rewrite (parseDateAttrs_falsy _ _ _ _ _ (Some (Num 0))), E;
    by rewrite ?E; auto.
Qed.

(** C6. The claim has the [datetime] and [end-date] parsers fail exactly on
    an unparsable value. A value that [parseDate] parses to the epoch [0]
    fails the assertion of the parser as well: [InvalidDateError] is raised
    for a date that parses. *)
Theorem C6_epoch_zero_date_is_invalid (value : string) :
  parseDate value = Some 0 →
  parser Datetime value = (Throws (InvalidDateError value), []) ∧
  parser EndDate value = (Throws (InvalidDateError value), []).
Proof. intros H. cbn. rewrite H. split; reflexivity. Qed.

(** The [datetime] and [end-date] parsers off the epoch [0]: an unparsable
    value raises [InvalidDateError], a parsed instant is returned. *)
Lemma parser_datetime (a : attr) (value : string) :
  a = Datetime ∨ a = EndDate →
  match parseDate value with
  | None => parser a value = (Throws (InvalidDateError value), [])
  | Some epoch =>
      epoch ≠ 0 → parser a value = (Returns (Num epoch), [])
  end.
Proof.
  intros [-> | ->]; cbn; (destruct (parseDate value) as [z |]; cbn;
    [intros Hz; rewrite truthy_Num; apply Z.eqb_neq in Hz; by rewrite Hz
    | reflexivity]).
Qed.

(** C7, as amended. A [timestamp-seconds] value that is the first present
    candidate resolves to the product of [1000] and its number in the
    arithmetic of doubles: the double nearest to the exact product, which is
    the exact product when that is a double, as it is for integers up to
    [2^53] in magnitude. On [{"timestamp-seconds": "10"}] with names
    [["timestamp-seconds"]] the call returns [10000]. Whatever the value,
    the resolved epoch is [1000 * Number(value)]. *)
Theorem C7_timestamp_seconds :
  (∀ (element : gmap string string) (pre post : list string)
     (value : string) (k : Z),
     Forall recognized (pre ++ "timestamp-seconds" :: post) →
     Forall (λ n, truthyAttr (element !! n) = false) pre →
     element !! "timestamp-seconds" = Some value →
     value ≠ "" →
     Number value = Finite k →
     parser TimestampSeconds value = (Returns (round (1000 * k) 0), []) ∧
     parseEpoch element (pre ++ "timestamp-seconds" :: post) =
       (Returns (Some (round (1000 * k) 0)),
        (pre ++ ["timestamp-seconds"])%list) ∧
     (representable (1000 * k) → round (1000 * k) 0 = Finite (1000 * k))) ∧
  (∀ (element : gmap string string) (pre post : list string)
     (value : string) (seconds : Z),
     Forall recognized (pre ++ "timestamp-seconds" :: post) →
     Forall (λ n, truthyAttr (element !! n) = false) pre →
     element !! "timestamp-seconds" = Some value →
     value ≠ "" →
     Number value = Num seconds →
     Z.abs seconds <= 2 ^ 53 →
     Z.abs (1000 * seconds) <= 2 ^ 53 →
     parseEpoch element (pre ++ "timestamp-seconds" :: post) =
       (Returns (Some (Num (1000 * seconds))),
        (pre ++ ["timestamp-seconds"])%list) ∧
     integerValue (Num (1000 * seconds)) = Some (1000 * seconds)) ∧
  (Number "10" = Num 10 →
   parseDateAttrs {[ "timestamp-seconds" := "10" ]} ["timestamp-seconds"] =
     (Returns (Num 10000), ["timestamp-seconds"; "offset-seconds"])) ∧
  (∀ (element : gmap string string) (pre post : list string)
     (value : string),
     Forall recognized (pre ++ "timestamp-seconds" :: post) →
     Forall (λ n, truthyAttr (element !! n) = false) pre →
     element !! "timestamp-seconds" = Some value →
     value ≠ "" →
     parseEpoch element (pre ++ "timestamp-seconds" :: post) =
       (Returns (Some (mul (Num 1000) (Number value))),
        (pre ++ ["timestamp-seconds"])%list)).
Proof.
  assert (∀ (element : gmap string string) (pre post : list string)
            (value : string),
            Forall recognized (pre ++ "timestamp-seconds" :: post) →
            Forall (λ n, truthyAttr (element !! n) = false) pre →
            element !! "timestamp-seconds" = Some value →
            value ≠ "" →
            parseEpoch element (pre ++ "timestamp-seconds" :: post) =
            (Returns (Some (mul (Num 1000) (Number value))),
             (pre ++ ["timestamp-seconds"])%list))
    as Hresolve.
  { intros element pre post value Hrec Hpre Hattr Hvalue.
    pose proof (parseEpoch_first_own Number parseDate now element pre post
                  TimestampSeconds value) as E.
    cbn [attrName] in E. by rewrite E. }
  assert (1000 < 2 ^ 53) as H1000 by (by vm_compute).
  split; [| split; [| split; [| exact Hresolve]]].
  - intros element pre post value k Hrec Hpre Hattr Hvalue Hnum.
    split; [| split].
    + cbn. by rewrite Hnum, mul_1000.
    + rewrite (Hresolve element pre post value) by done.
      by rewrite Hnum, mul_1000.
    + apply round_exact.
  - intros element pre post value seconds Hrec Hpre Hattr Hvalue Hnum Hs Hms.
    split.
    + rewrite (Hresolve element pre post value) by done.
      rewrite Hnum, mul_Num by lia. reflexivity.
    + by apply integerValue_Num.
  - intros Hten.
    assert (Forall recognized ["timestamp-seconds"]) as Hrec
      by (repeat constructor; by eexists).
    pose proof (Hresolve {[ "timestamp-seconds" := "10" ]} [] [] "10"
                  Hrec ltac:(constructor) eq_refl ltac:(discriminate)) as E.
    cbn [app] in E. rewrite Hten in E.
    rewrite mul_Num in E by (vm_compute; discriminate).
    rewrite (parseDateAttrs_offset_integer Number parseDate now _ _ 10000 0);
      rewrite ?E; try done.
Qed.

(** C9. Two elements that agree on every requested name and on
    [offset-seconds] give, at the same clock, the same outcome and the same
    reads: no other attribute influences [parseDateAttrs]. *)
Theorem C9_other_attributes_do_not_matter
    (element1 element2 : gmap string string) (dateAttrs : list string) :
  (∀ name, name ∈ dateAttrs → element1 !! name = element2 !! name) →
  element1 !! "offset-seconds" = element2 !! "offset-seconds" →
  parseDateAttrs element1 dateAttrs = parseDateAttrs element2 dateAttrs.
Proof.
  intros Hnames Hoffset.
  rewrite !parseDateAttrs_eq.
  rewrite (parseEpoch_agree Number parseDate now element1 element2) by done.
  by rewrite Hoffset.
Qed.

(** C10. With an empty list of names [parseDateAttrs] fails with
    [MissingAttributeError] on the empty list, and reads no attribute of the
    element, [offset-seconds] included. *)
Theorem C10_empty_list_is_missing (element : gmap string string) :
  parseDateAttrs element [] = (Throws (MissingAttributeError []), []) ∧
  message (MissingAttributeError []) = "One of attributes [] is required".
Proof. split; reflexivity. Qed.

End Claims.

(** C8, as amended. With the clock an explicit input, the [timeleft-ms]
    parser returns the sum of the clock and the number of its value in the
    arithmetic of doubles: the double nearest to the exact sum. When the two
    sums at clocks [now1 < now2] are doubles, as they are for an integer value
    and sums up to [2^53] in magnitude, the two results differ by exactly
    [now2 - now1], the later one being the greater. Whatever the value and
    the clock, the result is [now + Number(value)]. *)
Theorem C8_timeleft_follows_the_clock (Number : string → number)
    (parseDate : string → option Z) (value : string) (now1 now2 : Z) :
  Z.abs now1 <= 2 ^ 53 →
  Z.abs now2 <= 2 ^ 53 →
  now1 < now2 →
  (∀ k, Number value = Finite k →
     parser Number parseDate now1 TimeleftMs value =
       (Returns (round (now1 * scale + k) 0), []) ∧
     parser Number parseDate now2 TimeleftMs value =
       (Returns (round (now2 * scale + k) 0), []) ∧
     (representable (now1 * scale + k) →
      representable (now2 * scale + k) →
      ∃ r1 r2,
        parser Number parseDate now1 TimeleftMs value =
          (Returns (Finite r1), []) ∧
        parser Number parseDate now2 TimeleftMs value =
          (Returns (Finite r2), []) ∧
        r2 - r1 = (now2 - now1) * scale ∧ r1 < r2)) ∧
  (∀ timeleft,
     Number value = Num timeleft →
     Z.abs timeleft <= 2 ^ 53 →
     Z.abs (now1 + timeleft) <= 2 ^ 53 →
     Z.abs (now2 + timeleft) <= 2 ^ 53 →
     ∃ r1 r2,
       parser Number parseDate now1 TimeleftMs value = (Returns (Num r1), []) ∧
       parser Number parseDate now2 TimeleftMs value = (Returns (Num r2), []) ∧
       integerValue (Num r1) = Some r1 ∧ integerValue (Num r2) = Some r2 ∧
       r1 = now1 + timeleft ∧ r2 = now2 + timeleft ∧
       r2 - r1 = now2 - now1 ∧ r1 < r2) ∧
  (∀ now,
     parser Number parseDate now TimeleftMs value =
       (Returns (add (Num now) (Number value)), [])).
Proof.
  intros Hnow1 Hnow2 Hlt.
  assert (0 < scale) as Hscale
    by (rewrite scale_eq; apply Z.pow_pos_nonneg; lia).
  split; [| split; [| reflexivity]].
  - intros k Hnum.
    assert (∀ now, Z.abs now <= 2 ^ 53 →
              parser Number parseDate now TimeleftMs value =
              (Returns (round (now * scale + k) 0), [])) as Hparser.
    { intros now Hnow. cbn. rewrite Hnum, (Num_exact now) by done.
      reflexivity. }
    split; [by apply Hparser |]. split; [by apply Hparser |].
    intros Hr1 Hr2. exists (now1 * scale + k), (now2 * scale + k).
    rewrite !Hparser, !round_exact by done.
    repeat split; nia.
  - intros timeleft Hnum Htimeleft Hsum1 Hsum2.
    exists (now1 + timeleft), (now2 + timeleft).
    cbn. rewrite Hnum, !add_Num, !integerValue_Num by done.
    repeat split; lia.
Qed.

(** ** The claims at concrete inputs *)

Import Host.

Lemma C1_witness :
  "constructor" ∈ objectPrototype ∧
  (∅ : gmap string string) !! "constructor" = None ∧
  parseDateAttrs decimalNumber isoParseDate 0 ∅ ["constructor"] =
    (Throws (MissingAttributeError ["constructor"]), ["constructor"]).
Proof.
  assert ("constructor" ∈ objectPrototype) as Hm by apply list_elem_of_here.
  split; [exact Hm |]. split; [reflexivity |].
  exact (proj2 (proj2 (proj2
    (C1_inherited_name_is_not_rejected decimalNumber isoParseDate 0
       ∅ "constructor" Hm eq_refl)))).
Defined.

(** The claim C2 fails on [{"timestamp-ms": "abc"}]: the attribute is present
    and non-empty and the resolver returns [NaN], not [null], yet the call
    fails with [MissingAttributeError]. *)
Lemma C2_counterexample :
  let element : gmap string string := {[ "timestamp-ms" := "abc" ]} in
  let dateAttrs := ["timestamp-ms"] in
  Forall recognized dateAttrs ∧
  ¬ ((parseDateAttrs decimalNumber isoParseDate 0 element dateAttrs).1 =
       Throws (MissingAttributeError dateAttrs) ↔
     (parseEpoch decimalNumber isoParseDate 0 element dateAttrs).1 =
       Returns None).
Proof.
  split.
  - repeat constructor. by eexists.
  - intros [H _]. specialize (H eq_refl). discriminate H.
Qed.

Lemma C2_witness :
  let element : gmap string string :=
    {[ "timestamp-ms" := "5000"; "offset-seconds" := "2" ]} in
  let dateAttrs := ["datetime"; "timestamp-ms"] in
  Forall recognized dateAttrs ∧
  parseDateAttrs decimalNumber isoParseDate 0 element dateAttrs =
    (Returns (Num 7000), ["datetime"; "timestamp-ms"; "offset-seconds"]).
Proof.
  assert (Forall recognized ["datetime"; "timestamp-ms"]) as Hrec
    by (repeat constructor; by eexists).
  split; [exact Hrec |].
  rewrite (proj2 (proj2
    (C2_missing_attribute decimalNumber isoParseDate 0
       {[ "timestamp-ms" := "5000"; "offset-seconds" := "2" ]}
       ["datetime"; "timestamp-ms"] Hrec)) (Num 5000));
    vm_compute; (reflexivity || discriminate).
Defined.

Lemma C3_witness :
  let element : gmap string string :=
    {[ "timestamp-ms" := "5000"; "datetime" := "not a date" ]} in
  parseEpoch decimalNumber isoParseDate 0 element
    ["timestamp-ms"; "datetime"] =
  (Returns (Some (Num 5000)), ["timestamp-ms"]).
Proof.
  exact (proj2 (C3_first_present_name_wins decimalNumber isoParseDate 0)
           {[ "timestamp-ms" := "5000"; "datetime" := "not a date" ]}
           "5000" "not a date" eq_refl ltac:(discriminate) eq_refl).
Defined.

(** The claim C4 fails on [{"timestamp-ms": "abc"}]: the value is not
    numeric, and the enclosing call raises an error. *)
Lemma C4_counterexample :
  decimalNumber "abc" = NaN ∧
  parseDateAttrs decimalNumber isoParseDate 0
    {[ "timestamp-ms" := "abc" ]} ["timestamp-ms"] =
  (Throws (MissingAttributeError ["timestamp-ms"]), ["timestamp-ms"]).
Proof. split; reflexivity. Qed.

Lemma C4_witness :
  let element : gmap string string :=
    {[ "datetime" := ""; "timeleft-ms" := "soon" ]} in
  let dateAttrs := ["datetime"; "timeleft-ms"; "timestamp-ms"] in
  parser decimalNumber isoParseDate 1000 TimeleftMs "soon" =
    (Returns NaN, []) ∧
  parseEpoch decimalNumber isoParseDate 1000 element dateAttrs =
    (Returns (Some NaN), ["datetime"; "timeleft-ms"]) ∧
  parseDateAttrs decimalNumber isoParseDate 1000 element dateAttrs =
    (Throws (MissingAttributeError dateAttrs), ["datetime"; "timeleft-ms"]).
Proof.
  apply (C4_nan_is_returned_by_the_parser_only decimalNumber isoParseDate 1000
           {[ "datetime" := ""; "timeleft-ms" := "soon" ]}
           ["datetime"] ["timestamp-ms"] TimeleftMs "soon").
  - apply list_elem_of_further, list_elem_of_here || apply list_elem_of_here.
  - reflexivity.
  - repeat constructor; by eexists.
  - repeat constructor.
  - reflexivity.
  - discriminate.
Defined.

Lemma C5_witness :
  let element : gmap string string :=
    {[ "timestamp-ms" := "0"; "offset-seconds" := "2" ]} in
  decimalNumber "0" = Num 0 ∧
  parseDateAttrs decimalNumber isoParseDate 0 element ["timestamp-ms"] =
    (Throws (MissingAttributeError ["timestamp-ms"]), ["timestamp-ms"]).
Proof.
  split; [reflexivity |].
  exact (proj2 (C5_epoch_zero_is_rejected decimalNumber isoParseDate 0
                  {[ "timestamp-ms" := "0"; "offset-seconds" := "2" ]}
                  eq_refl eq_refl)).
Defined.

Lemma C6_witness :
  isoParseDate "1970-01-01T00:00:00Z" = Some 0 ∧
  parser decimalNumber isoParseDate 0 Datetime "1970-01-01T00:00:00Z" =
    (Throws (InvalidDateError "1970-01-01T00:00:00Z"), []).
Proof.
  split; [reflexivity |].
  exact (proj1 (C6_epoch_zero_date_is_invalid decimalNumber isoParseDate 0
                  "1970-01-01T00:00:00Z" eq_refl)).
Defined.

(** The claim C7 fails on [{"timestamp-seconds": "72057594037929"}]: the
    resolved epoch is [72057594037928992], the double nearest to the product,
    and not [1000] times the number of seconds. *)
Lemma C7_counterexample :
  let element : gmap string string :=
    {[ "timestamp-seconds" := "72057594037929" ]} in
  integerValue (decimalNumber "72057594037929") = Some 72057594037929 ∧
  ∃ epoch,
    parseEpoch decimalNumber isoParseDate 0 element ["timestamp-seconds"] =
      (Returns (Some epoch), ["timestamp-seconds"]) ∧
    integerValue epoch = Some 72057594037928992 ∧
    72057594037928992 ≠ 1000 * 72057594037929.
Proof.
  split; [vm_compute; reflexivity |].
  eexists. split; [vm_compute; reflexivity |].
  split; [vm_compute; reflexivity | lia].
Qed.

Lemma C7_witness :
  parseEpoch decimalNumber isoParseDate 0
    {[ "timestamp-seconds" := "10" ]} ["datetime"; "timestamp-seconds"] =
    (Returns (Some (Num (1000 * 10))), ["datetime"; "timestamp-seconds"]) ∧
  integerValue (Num (1000 * 10)) = Some (1000 * 10).
Proof.
  refine (proj1 (proj2 (C7_timestamp_seconds decimalNumber isoParseDate 0))
            {[ "timestamp-seconds" := "10" ]} ["datetime"] [] "10" 10
            _ _ _ _ _ _ _).
  - repeat constructor; by eexists.
  - repeat constructor.
  - reflexivity.
  - discriminate.
  - vm_compute; reflexivity.
  - vm_compute; discriminate.
  - vm_compute; discriminate.
Defined.

(** The claim C8 fails on the value ["9007199254740992"]: at the clocks [1]
    and [3] the results differ by [4], not by [2], and at the clocks
    [1700000000000] and [1700000000001] the results are the same number. *)
Lemma C8_counterexample :
  let value := "9007199254740992" in
  integerValue (decimalNumber value) = Some 9007199254740992 ∧
  (∃ r1 r2,
     parser decimalNumber isoParseDate 1 TimeleftMs value =
       (Returns r1, []) ∧
     parser decimalNumber isoParseDate 3 TimeleftMs value =
       (Returns r2, []) ∧
     integerValue r1 = Some 9007199254740992 ∧
     integerValue r2 = Some 9007199254740996 ∧
     9007199254740996 - 9007199254740992 ≠ 3 - 1) ∧
  parser decimalNumber isoParseDate 1700000000000 TimeleftMs value =
  parser decimalNumber isoParseDate 1700000000001 TimeleftMs value.
Proof.
  split; [vm_compute; reflexivity |]. split.
  - eexists _, _. split; [vm_compute; reflexivity |].
    split; [vm_compute; reflexivity |].
    split; [vm_compute; reflexivity |].
    split; [vm_compute; reflexivity | lia].
  - vm_compute; reflexivity.
Qed.

Lemma C8_witness :
  ∃ r1 r2,
    parser decimalNumber isoParseDate 1000 TimeleftMs "500" =
      (Returns (Num r1), []) ∧
    parser decimalNumber isoParseDate 1250 TimeleftMs "500" =
      (Returns (Num r2), []) ∧
    integerValue (Num r1) = Some r1 ∧ integerValue (Num r2) = Some r2 ∧
    r1 = 1000 + 500 ∧ r2 = 1250 + 500 ∧ r2 - r1 = 1250 - 1000 ∧ r1 < r2.
Proof.
  refine (proj1 (proj2 (C8_timeleft_follows_the_clock decimalNumber
                          isoParseDate "500" 1000 1250 _ _ _)) 500 _ _ _ _).
  - vm_compute; discriminate.
  - vm_compute; discriminate.
  - lia.
  - vm_compute; reflexivity.
  - vm_compute; discriminate.
  - vm_compute; discriminate.
  - vm_compute; discriminate.
Defined.

Lemma C9_witness :
  let element1 : gmap string string :=
    {[ "timestamp-ms" := "5000"; "title" := "sale" ]} in
  let element2 : gmap string string :=
    {[ "timestamp-ms" := "5000"; "title" := "launch"; "datetime" := "x" ]} in
  parseDateAttrs decimalNumber isoParseDate 0 element1 ["timestamp-ms"] =
  parseDateAttrs decimalNumber isoParseDate 0 element2 ["timestamp-ms"].
Proof.
  apply C9_other_attributes_do_not_matter.
  - intros name H. apply list_elem_of_singleton in H as ->. reflexivity.
  - reflexivity.
Defined.

(** The examples of the specification. *)

Example parseDateAttrs_datetime :
  parseDateAttrs decimalNumber isoParseDate 0
    {[ "datetime" := "2023-01-01T00:00:00Z" ]} ["datetime"] =
  (Returns (Num 1672531200000), ["datetime"; "offset-seconds"]).
Proof. vm_compute. reflexivity. Qed.

Example parseDateAttrs_offset_seconds :
  parseDateAttrs decimalNumber isoParseDate 0
    {[ "timestamp-ms" := "5000"; "offset-seconds" := "2" ]} ["timestamp-ms"] =
  (Returns (Num 7000), ["timestamp-ms"; "offset-seconds"]).
Proof. vm_compute. reflexivity. Qed.

Example parseDateAttrs_datetime_epoch :
  parseDateAttrs decimalNumber isoParseDate 0
    {[ "datetime" := "1970-01-01T00:00:00Z" ]} ["datetime"] =
  (Throws (InvalidDateError "1970-01-01T00:00:00Z"), ["datetime"]).
Proof. vm_compute. reflexivity. Qed.

Example parseDateAttrs_inherited_after_present :
  parseDateAttrs decimalNumber isoParseDate 0
    {[ "timestamp-ms" := "5000" ]} ["timestamp-ms"; "constructor"] =
  (Returns (Num 5000), ["timestamp-ms"; "offset-seconds"]).
Proof. vm_compute. reflexivity. Qed.

Example parseDateAttrs_unknown_after_present :
  parseDateAttrs decimalNumber isoParseDate 0
    {[ "timestamp-ms" := "5000" ]} ["timestamp-ms"; "timestamp"] =
  (Throws (UnknownAttributeError "timestamp"), []).
Proof. vm_compute. reflexivity. Qed.

(** ** Further properties of the resolver and the entry point *)

Section Further.

Variable Number : string → number.
Variable parseDate : string → option Z.
Variable now : Z.

#[local] Abbreviation parser := (parser Number parseDate now).
#[local] Abbreviation call := (call Number parseDate now).
#[local] Abbreviation scan := (scan Number parseDate now).
#[local] Abbreviation parseEpoch := (parseEpoch Number parseDate now).
#[local] Abbreviation parseDateAttrs := (parseDateAttrs Number parseDate now).

(** A call of an entry reads no attribute. *)
Lemma call_reads (p : entry) (value : string) :
  (epoch ← call p value; mret (Some epoch)).2 = [].
Proof.
  destruct p as [a | member]; [| reflexivity]. cbn [call].
  destruct (parser_cases Number parseDate now a value) as [[n ->] | ->];
    reflexivity.
Qed.

(** The loop reads the names in order, from the first one on. *)
Lemma scan_reads_prefix (element : gmap string string)
    (dateAttrs : list string) (parsers : list entry) :
  (scan element dateAttrs parsers).2 `prefix_of` dateAttrs.
Proof.
  revert parsers.
  induction dateAttrs as [| name dateAttrs IH]; intros parsers.
  - destruct parsers; apply prefix_nil.
  - destruct parsers as [| p parsers]; [apply prefix_nil |].
    rewrite scan_cons. destruct (truthyAttr (element !! name)); cbn [snd].
    + rewrite call_reads. apply prefix_cons, prefix_nil.
    + apply prefix_cons, IH.
Qed.

(** The loop sees an empty value as it sees a missing attribute. *)
Lemma scan_falsy_agree (element1 element2 : gmap string string)
    (dateAttrs : list string) (parsers : list entry) :
  (∀ name, name ∈ dateAttrs →
     element1 !! name = element2 !! name ∨
     (truthyAttr (element1 !! name) = false ∧
      truthyAttr (element2 !! name) = false)) →
  scan element1 dateAttrs parsers = scan element2 dateAttrs parsers.
Proof.
  revert parsers.
  induction dateAttrs as [| name dateAttrs IH]; intros parsers H;
    [reflexivity |].
  destruct parsers as [| p parsers]; [reflexivity |].
  assert (scan element1 dateAttrs parsers = scan element2 dateAttrs parsers)
    as Hrest by (apply IH; intros n Hn; apply H; set_solver).
  rewrite !scan_cons, Hrest.
  destruct (H name) as [-> | [-> ->]]; [set_solver | reflexivity..].
Qed.

(** The lookup of a name is defined exactly for the five keys and the names
    of the prototype. *)
Lemma lookupParser_is_Some (name : string) :
  is_Some (lookupParser name) ↔ recognized name ∨ name ∈ objectPrototype.
Proof.
  split.
  - intros [p Hp]. unfold lookupParser in Hp.
    destruct (dateAttrParsers !! name) as [a |] eqn:E; [left; by eexists |].
    case_bool_decide; [by right | discriminate].
  - intros [[a Ha] | Hm].
    + rewrite (lookupParser_own _ _ Ha). by eexists.
    + rewrite (lookupParser_inherited _ Hm). by eexists.
Qed.

(** Only the [datetime] and [end-date] parsers raise, and only
    [InvalidDateError] on their value. *)
Lemma parser_throws (a : attr) (value : string) (e : error)
    (r : list string) :
  parser a value = (Throws e, r) →
  (a = Datetime ∨ a = EndDate) ∧ e = InvalidDateError value.
Proof.
  destruct a; cbn; try discriminate;
    (destruct (parseDate value) as [z |]; cbn;
     [destruct (truthy (Num z)); cbn |]; intros H; try discriminate;
     injection H as <- <-; tauto).
Qed.

(** X1. A list that holds a name which is neither one of the five keys nor a
    property name of [Object.prototype] fails with [UnknownAttributeError] on
    the first such name, whatever the element holds and before any of its
    attributes is read, also when an earlier name is present on the
    element. *)
Theorem X1_unknown_name_fails_before_any_read (element : gmap string string)
    (dateAttrs : list string) :
  Exists (λ n, (¬ recognized n) ∧ n ∉ objectPrototype) dateAttrs →
  ∃ pre name post,
    dateAttrs = (pre ++ name :: post)%list ∧
    Forall (λ n, recognized n ∨ n ∈ objectPrototype) pre ∧
    (¬ recognized name) ∧ (name ∉ objectPrototype) ∧
    parseEpoch element dateAttrs = (Throws (UnknownAttributeError name), []) ∧
    parseDateAttrs element dateAttrs =
      (Throws (UnknownAttributeError name), []).
Proof.
  intros H.
  assert (Exists (λ n, lookupParser n = None) dateAttrs) as Hex.
  { eapply Exists_impl; [exact H |]. intros n [Hr Hp].
    by apply lookupParser_undefined. }
  apply first_undefined in Hex as (pre & name & post & -> & Hpre & Hname).
  assert (parseEpoch element (pre ++ name :: post) =
          (Throws (UnknownAttributeError name), [])) as E.
  { unfold parseEpoch.
    by rewrite (validate_undefined pre post name Hpre). }
  exists pre, name, post. split; [done |]. split.
  { eapply Forall_impl; [exact Hpre |]. intros n Hn.
    by apply lookupParser_is_Some. }
  assert (¬ (recognized name ∨ name ∈ objectPrototype)) as Hnot.
  { intros Hn. apply lookupParser_is_Some in Hn as [p Hp]. congruence. }
  repeat split; [tauto | tauto | exact E |].
  rewrite parseDateAttrs_eq, E. reflexivity.
Qed.

(** X2. When the resolver returns a truthy number, [parseDateAttrs] reads
    [offset-seconds] after the candidates and returns the sum of that number
    and of the offset times [1000], both operations in the arithmetic of
    doubles. When the offset times [1000] is a double, a fraction such as one
    half included, the result is the double nearest to the exact sum, and the
    exact sum when that is a double. An [offset-seconds] that is missing, or
    whose value is not numeric, raises nothing and leaves the number as it
    is. *)
Theorem X2_offset_is_added_in_milliseconds (element : gmap string string)
    (dateAttrs : list string) (epoch : number) :
  (parseEpoch element dateAttrs).1 = Returns (Some epoch) →
  truthy epoch = true →
  parseDateAttrs element dateAttrs =
    (Returns (add epoch
                (mul (orZero (toNumber Number (element !! "offset-seconds")))
                     (Num 1000))),
     ((parseEpoch element dateAttrs).2 ++ ["offset-seconds"])%list) ∧
  (∀ a b,
     epoch = Finite a →
     orZero (toNumber Number (element !! "offset-seconds")) = Finite b →
     representable (1000 * b) →
     (parseDateAttrs element dateAttrs).1 = Returns (round (a + 1000 * b) 0) ∧
     (representable (a + 1000 * b) →
      (parseDateAttrs element dateAttrs).1 =
        Returns (Finite (a + 1000 * b)))) ∧
  (isDouble epoch →
   element !! "offset-seconds" = None ∨
   (∃ v, element !! "offset-seconds" = Some v ∧ Number v = NaN) →
   (parseDateAttrs element dateAttrs).1 = Returns epoch).
Proof.
  intros E Ht.
  pose proof (parseDateAttrs_offset Number parseDate now element dateAttrs
                epoch E Ht) as R.
  split; [exact R |]. split.
  - intros a b -> Hb Hrep.
    assert ((parseDateAttrs element dateAttrs).1 =
            Returns (round (a + 1000 * b) 0)) as R'.
    { rewrite R. cbn [fst]. unfold offsetSeconds.
      rewrite Hb, mul_1000_r, round_exact by done. reflexivity. }
    split; [exact R' |]. intros Hsum. by rewrite R', round_exact.
  - intros Hdouble Hoff. rewrite R. cbn [fst].
    by rewrite (offsetSeconds_default Number _ Hoff), add_0_r.
Qed.

(** X3. Whatever the names and the element, the attributes that the resolver
    reads are the requested names in order, from the first one up to some
    point. [parseDateAttrs] reads [offset-seconds] after them when it
    returns a number, and nothing more when it fails with one of its errors.
    Nothing is stated of the reads that follow the call of an inherited
    member. *)
Theorem X3_reads_follow_the_list (element : gmap string string)
    (dateAttrs : list string) :
  (parseEpoch element dateAttrs).2 `prefix_of` dateAttrs ∧
  match (parseDateAttrs element dateAttrs).1 with
  | Returns _ =>
      (parseDateAttrs element dateAttrs).2 =
      ((parseEpoch element dateAttrs).2 ++ ["offset-seconds"])%list
  | Throws _ =>
      (parseDateAttrs element dateAttrs).2 = (parseEpoch element dateAttrs).2
  | ProtoCall _ _ => True
  end.
Proof.
  split.
  - unfold parseEpoch.
    pose proof (validate_reads dateAttrs) as Hv.
    destruct (validate dateAttrs) as [[parsers | e | member arg] r];
      cbn [snd] in Hv; subst r; try apply prefix_nil.
    rewrite bind_returns. cbn [snd app]. apply scan_reads_prefix.
  - rewrite parseDateAttrs_eq.
    destruct (parseEpoch element dateAttrs) as [[[epoch |] | e | member arg] r];
      cbn [fst snd]; try done.
    destruct (truthy epoch); reflexivity.
Qed.

(** X4. A candidate attribute with the empty value counts as a missing one:
    two elements that, at every requested name, hold the same value or both
    hold none or the empty one, and that agree on [offset-seconds], give the
    same outcome and the same reads. *)
Theorem X4_empty_value_counts_as_missing
    (element1 element2 : gmap string string) (dateAttrs : list string) :
  (∀ name, name ∈ dateAttrs →
     element1 !! name = element2 !! name ∨
     (truthyAttr (element1 !! name) = false ∧
      truthyAttr (element2 !! name) = false)) →
  element1 !! "offset-seconds" = element2 !! "offset-seconds" →
  parseDateAttrs element1 dateAttrs = parseDateAttrs element2 dateAttrs.
Proof.
  intros Hnames Hoffset.
  assert (parseEpoch element1 dateAttrs = parseEpoch element2 dateAttrs) as E.
  { unfold parseEpoch.
    destruct (validate dateAttrs) as [[parsers | e | member arg] r];
      [| reflexivity | reflexivity].
    by rewrite !bind_returns, (scan_falsy_agree element1 element2). }
  by rewrite !parseDateAttrs_eq, E, Hoffset.
Qed.

(** X5. On recognized names [parseDateAttrs] ends in one of three ways: it
    returns a number, it fails with [MissingAttributeError] on the requested
    names, or it fails with [InvalidDateError] on the value that the element
    holds for [datetime] or [end-date], one of the requested names. *)
Theorem X5_outcomes_on_recognized_names (element : gmap string string)
    (dateAttrs : list string) :
  Forall recognized dateAttrs →
  (∃ n, (parseDateAttrs element dateAttrs).1 = Returns n) ∨
  (parseDateAttrs element dateAttrs).1 =
    Throws (MissingAttributeError dateAttrs) ∨
  (∃ name value,
     name ∈ dateAttrs ∧ (name = "datetime" ∨ name = "end-date") ∧
     element !! name = Some value ∧
     (parseDateAttrs element dateAttrs).1 = Throws (InvalidDateError value)).
Proof.
  intros Hrec.
  destruct (decide (Forall (λ n, truthyAttr (element !! n) = false) dateAttrs))
    as [Habsent | Hpresent].
  - right; left.
    by rewrite parseDateAttrs_eq, parseEpoch_absent.
  - apply first_truthy in Hpresent
      as (pre & name & value & post & -> & Hpre & Hname & Hvalue).
    destruct (parseEpoch_first Number parseDate now element pre post name
                value Hrec Hpre Hname Hvalue) as (a & Ha & E).
    rewrite parseDateAttrs_eq, E. cbn [fst snd].
    destruct (parser_cases Number parseDate now a value) as [[n Hn] | Hn].
    + rewrite Hn. cbn.
      destruct (truthy n); [left; by eexists | right; by left].
    + destruct (parser_throws a value _ _ Hn) as [Hdate _].
      right; right. exists name, value.
      apply dateAttrParsers_lookup in Ha.
      split; [apply elem_of_app; right; apply list_elem_of_here |].
      split; [destruct Hdate as [Ea | Ea]; rewrite Ea in Ha; cbn in Ha; tauto |].
      split; [exact Hname | by rewrite Hn].
Qed.

(** X6. An invalid date does not fall through to the next candidate: when
    the first present candidate is [datetime] or [end-date] and [parseDate]
    returns [null] for its value, the call fails with [InvalidDateError] on
    that value, and no later name and no [offset-seconds] is read, whatever
    the other attributes hold. *)
Theorem X6_invalid_date_does_not_fall_through (element : gmap string string)
    (pre post : list string) (a : attr) (value : string) :
  a = Datetime ∨ a = EndDate →
  Forall recognized (pre ++ attrName a :: post) →
  Forall (λ n, truthyAttr (element !! n) = false) pre →
  element !! attrName a = Some value →
  value ≠ "" →
  parseDate value = None →
  parseDateAttrs element (pre ++ attrName a :: post) =
    (Throws (InvalidDateError value), (pre ++ [attrName a])%list).
Proof.
  intros Ha Hrec Hpre Hattr Hvalue Hnull.
  rewrite parseDateAttrs_eq.
  rewrite (parseEpoch_first_own Number parseDate now element pre post a value)
    by done.
  destruct Ha as [-> | ->]; cbn; by rewrite Hnull.
Qed.

End Further.

(** ** The background blur *)

Section BackgroundBlurProperties.

Import BackgroundBlur.

Lemma head_insertSorted {A : Type} (compareFn : A → A → Z) (x : A)
    (sorted : list A) :
  head (insertSorted compareFn x sorted) =
  Some match head sorted with
       | None => x
       | Some y => if compareFn x y <=? 0 then x else y
       end.
Proof.
  destruct sorted as [| y rest]; [reflexivity |]. cbn.
  by destruct (compareFn x y <=? 0).
Qed.

(** The choice among a first candidate and the choice among the others. *)
Lemma getBackgroundElement_cons (el : media) (candidates : list media) :
  getBackgroundElement_ (el :: candidates) =
  Some match getBackgroundElement_ candidates with
       | None => el
       | Some largest =>
           if getSize largest <=? getSize el then el else largest
       end.
Proof.
  unfold getBackgroundElement_, sort. cbn [foldr].
  rewrite head_insertSorted.
  destruct (head _) as [largest |]; [| reflexivity].
  by replace (getSize largest - getSize el <=? 0)
    with (getSize largest <=? getSize el) by lia.
Qed.

(** X7. [getBackgroundElement_] returns [undefined] exactly when the page has
    no [img] or [video]; otherwise it returns the candidate of the largest
    size, width times height, and among candidates of that size the first
    one in document order. *)
Theorem X7_background_is_the_first_largest (candidates : list media) :
  match getBackgroundElement_ candidates with
  | None => candidates = []
  | Some el =>
      ∃ before after,
        candidates = (before ++ el :: after)%list ∧
        Forall (λ e, getSize e < getSize el) before ∧
        Forall (λ e, getSize e ≤ getSize el) after
  end.
Proof.
  induction candidates as [| el candidates IH]; [reflexivity |].
  rewrite getBackgroundElement_cons.
  destruct (getBackgroundElement_ candidates) as [largest |].
  - destruct IH as (before & after & -> & Hbefore & Hafter).
    destruct (getSize largest <=? getSize el) eqn:E.
    + apply Z.leb_le in E. exists [], (before ++ largest :: after)%list.
      repeat split; [constructor |].
      apply Forall_app. split; [| constructor].
      * eapply Forall_impl; [exact Hbefore |]. cbn. intros; lia.
      * exact E.
      * eapply Forall_impl; [exact Hafter |]. cbn. intros; lia.
    + apply Z.leb_gt in E. exists (el :: before), after.
      repeat split; [by constructor | done].
  - subst candidates. exists [], []. repeat split; constructor.
Qed.

Lemma ltb_lt (x y : Q) : ltb x y = true ↔ (x < y)%Q.
Proof.
  unfold ltb. rewrite negb_true_iff. split.
  - intros H. apply Qnot_le_lt. intros Hle.
    apply Qle_bool_iff in Hle. congruence.
  - intros H. destruct (Qle_bool y x) eqn:E; [| reflexivity].
    apply Qle_bool_iff in E. lra.
Qed.

Lemma ltb_ge (x y : Q) : ltb x y = false ↔ (y <= x)%Q.
Proof.
  unfold ltb. rewrite negb_false_iff. apply Qle_bool_iff.
Qed.


(** ** The test of a frame on doubles *)

Lemma scale_pos : 0 < scale.
Proof. rewrite scale_eq. by apply Z.pow_pos_nonneg. Qed.

Lemma ofDouble_sub (x y : Z) :
  (ofDouble x - ofDouble y == ofDouble (x - y))%Q.
Proof.
  unfold ofDouble, Qeq, Qminus, Qplus, Qopp. cbn [Qnum Qden].
  set (P := Z.to_pos scale).
  change (Z.pos (P * P)) with (Z.pos P * Z.pos P). ring.
Qed.

Lemma ofDouble_le_200 (d : Z) :
  (200 <= ofDouble d)%Q ↔ 200 * scale <= d.
Proof.
  unfold ofDouble, Qle. cbn [Qnum Qden].
  rewrite Z2Pos.id by apply scale_pos. lia.
Qed.

Lemma ofDouble_margin (d : Z) :
  (ofDouble d <= 200 - (1 # 1000000))%Q → d <= 200 * scale - 2 ^ 1029.
Proof.
  unfold ofDouble, Qle, Qminus, Qplus, Qopp. cbn [Qnum Qden].
  rewrite Z2Pos.id by apply scale_pos.
  assert (scale = 2 ^ 1029 * 2 ^ 45) as ->
    by (rewrite scale_eq, <- Z.pow_add_r by lia; reflexivity).
  assert (0 < 2 ^ 1029) by (by apply Z.pow_pos_nonneg).
  change (2 ^ 45) with 35184372088832.
  set (u := 2 ^ 1029) in *. intros Hd. nia.
Qed.

Lemma representable_200 : representable (200 * scale).
Proof.
  exists 25, 1077. split; [lia |]. split.
  - rewrite scale_eq. change 1077 with (3 + 1074).
    rewrite Z.pow_add_r by lia. change (2 ^ 3) with 8. lia.
  - split; [by vm_compute |]. rewrite scale_eq, limit_eq.
    by vm_compute.
Qed.

Lemma representable_below_200 : representable (200 * scale - 2 ^ 1029).
Proof.
  exists (200 * 2 ^ 45 - 1), 1029. split; [lia |]. split.
  - rewrite scale_eq. change 1074 with (45 + 1029).
    rewrite Z.pow_add_r by lia. ring.
  - split; [by vm_compute |]. rewrite scale_eq, limit_eq.
    by vm_compute.
Qed.

(** On timestamps that are doubles, the test [elapsed < DURATION_MS] of the
    source, whose subtraction rounds, and the exact test decide alike when
    the exact difference is [200] or more, and when it is below [200] by a
    millionth or more. *)
Lemma elapsed_test_on_doubles (currTime startTime : Z) :
  let elapsed := (ofDouble currTime - ofDouble startTime)%Q in
  ((elapsed <= 200 - (1 # 1000000))%Q →
   lt (sub (Finite currTime) (Finite startTime)) (Num 200) = true ∧
   ltb elapsed DURATION_MS = true) ∧
  ((200 <= elapsed)%Q →
   lt (sub (Finite currTime) (Finite startTime)) (Num 200) = false ∧
   ltb elapsed DURATION_MS = false).
Proof.
  cbv zeta. rewrite (Num_exact 200) by (by vm_compute).
  assert (0 < 2 ^ 1029) by (by apply Z.pow_pos_nonneg).
  cbn [sub]. split; intros Helapsed.
  - split.
    + rewrite ofDouble_sub in Helapsed. apply ofDouble_margin in Helapsed.
      pose proof (round_le _ _ representable_below_200 Helapsed) as Hr.
      destruct (round (currTime - startTime) 0) as [| negative | k];
        [done | exact Hr |]. cbn [lt]. apply Z.ltb_lt. lia.
    + unfold ltb, DURATION_MS. apply negb_true_iff.
      destruct (Qle_bool _ _) eqn:E; [| done].
      apply Qle_bool_iff in E. lra.
  - split.
    + rewrite ofDouble_sub in Helapsed.
      apply (proj1 (ofDouble_le_200 _)) in Helapsed.
      pose proof (round_ge _ _ representable_200 Helapsed) as Hr.
      destruct (round (currTime - startTime) 0) as [| negative | k];
        [done | exact Hr |]. cbn [lt]. apply Z.ltb_ge. lia.
    + unfold ltb, DURATION_MS. apply negb_false_iff.
      by apply Qle_bool_iff.
Qed.




Lemma easing_bounds (elapsed : Q) :
  (0 <= elapsed)%Q → (elapsed < DURATION_MS)%Q →
  (0 <= easing elapsed)%Q ∧ (easing elapsed <= 1)%Q.
Proof.
  unfold easing, DURATION_MS. intros H0 H1.
  assert (0 <= elapsed / 200)%Q as Hx0 by (apply Qle_shift_div_l; lra).
  assert (elapsed / 200 <= 1)%Q as Hx1 by (apply Qle_shift_div_r; lra).
  set (x := (elapsed / 200)%Q) in *.
  change ((1 - x) ^ 2)%Q with ((1 - x) * (1 - x))%Q.
  split; nra.
Qed.

Lemma globalAlpha_draw (fillElement : bool) (elapsed : Q) :
  globalAlpha (draw fillElement elapsed) = easing elapsed.
Proof. by destruct fillElement. Qed.

(** Over timestamps that do not decrease and are not before the start time,
    every frame is drawn at an alpha between [0] and [1]. *)
Lemma frames_alpha_bounds (fillElement : bool) (timestamps : list Q) :
  StronglySorted Qle timestamps →
  ∀ startTime,
    match startTime with
    | Some t0 => Forall (Qle t0) timestamps
    | None => True
    end →
    Forall (λ c, (0 <= globalAlpha c)%Q ∧ (globalAlpha c <= 1)%Q)
           (frames fillElement startTime timestamps).
Proof.
  induction 1 as [| t later Hsorted IH Hlater]; intros startTime Hstart;
    [constructor |].
  cbn [frames]. unfold nextFrame.
  assert ((started startTime t <= t)%Q ∧
          Forall (Qle (started startTime t)) later) as [Hle Hrest].
  { destruct startTime as [t0 |]; cbn [started].
    - apply Forall_cons in Hstart as [Ht Hrest].
      destruct (Qeq_bool t0 0); [split; [lra | exact Hlater] | by split].
    - split; [lra | exact Hlater]. }
  destruct (ltb (t - started startTime t) DURATION_MS) eqn:Hlt;
    [| constructor].
  constructor.
  - rewrite globalAlpha_draw. apply easing_bounds; [lra |].
    by apply ltb_lt.
  - by apply IH.
Qed.

(** X9. With timestamps that do not decrease, as the host delivers them,
    every frame of the animation is drawn at a [globalAlpha] between [0] and
    [1]; the first callback always draws, at alpha [0]; and the alpha does
    not decrease with the elapsed time, up to the duration. *)
Theorem X9_alpha_stays_between_0_and_1 (fillElement : bool)
    (timestamps : list Q) :
  Sorted Qle timestamps →
  Forall (λ c, (0 <= globalAlpha c)%Q ∧ (globalAlpha c <= 1)%Q)
         (animate_ fillElement timestamps) ∧
  match animate_ fillElement timestamps with
  | [] => timestamps = []
  | c :: _ => (globalAlpha c == 0)%Q
  end ∧
  ∀ e1 e2, (0 <= e1)%Q → (e1 <= e2)%Q → (e2 <= 200)%Q →
           (easing e1 <= easing e2)%Q.
Proof.
  intros Hsorted. split; [| split].
  - apply frames_alpha_bounds; [| exact I].
    apply Sorted_StronglySorted; [| exact Hsorted].
    intros x y z. apply Qle_trans.
  - destruct timestamps as [| t later]; [reflexivity |].
    unfold animate_. cbn [frames]. unfold nextFrame. cbn [started].
    assert (ltb (t - t) DURATION_MS = true) as ->
      by (apply ltb_lt; unfold DURATION_MS; lra).
    rewrite globalAlpha_draw. unfold easing, DURATION_MS.
    change ((1 - (t - t) / 200) ^ 2)%Q
      with ((1 - (t - t) / 200) * (1 - (t - t) / 200))%Q.
    assert ((t - t) / 200 == 0)%Q as -> by (field_simplify; reflexivity || lra).
    lra.
  - intros e1 e2 H0 H12 H2. unfold easing, DURATION_MS.
    assert (0 <= e1 / 200)%Q by (apply Qle_shift_div_l; lra).
    assert (e1 / 200 <= e2 / 200)%Q
      by (apply Qle_shift_div_l; [lra |]; field_simplify; lra).
    assert (e2 / 200 <= 1)%Q by (apply Qle_shift_div_r; lra).
    set (x := (e1 / 200)%Q) in *. set (y := (e2 / 200)%Q) in *.
    change ((1 - x) ^ 2)%Q with ((1 - x) * (1 - x))%Q.
    change ((1 - y) ^ 2)%Q with ((1 - y) * (1 - y))%Q.
    nra.
Qed.

End BackgroundBlurProperties.

(** ** The further properties at concrete inputs *)

Lemma X1_witness :
  ∃ pre name post,
    ["timestamp-ms"; "timestamp"] = (pre ++ name :: post)%list ∧
    Forall (λ n, recognized n ∨ n ∈ objectPrototype) pre ∧
    (¬ recognized name) ∧ (name ∉ objectPrototype) ∧
    parseEpoch decimalNumber isoParseDate 0 {[ "timestamp-ms" := "5000" ]}
      ["timestamp-ms"; "timestamp"] =
      (Throws (UnknownAttributeError name), []) ∧
    parseDateAttrs decimalNumber isoParseDate 0 {[ "timestamp-ms" := "5000" ]}
      ["timestamp-ms"; "timestamp"] =
      (Throws (UnknownAttributeError name), []).
Proof.
  apply X1_unknown_name_fails_before_any_read.
  apply Exists_cons_tl, Exists_cons_hd. split.
  - intros Hr. apply recognized_five in Hr.
    repeat (apply elem_of_cons in Hr as [Hr | Hr]; [discriminate |]).
    by apply elem_of_nil in Hr.
  - intros Hm. unfold objectPrototype in Hm.
    repeat (apply elem_of_cons in Hm as [Hm | Hm]; [discriminate |]).
    by apply elem_of_nil in Hm.
Defined.

Lemma X2_witness :
  parseDateAttrs decimalNumber isoParseDate 0
    {[ "timestamp-ms" := "5000"; "offset-seconds" := "-2" ]}
    ["datetime"; "timestamp-ms"] =
  (Returns (Num 3000), ["datetime"; "timestamp-ms"; "offset-seconds"]).
Proof.
  assert ((parseEpoch decimalNumber isoParseDate 0
             {[ "timestamp-ms" := "5000"; "offset-seconds" := "-2" ]}
             ["datetime"; "timestamp-ms"]).1 = Returns (Some (Num 5000)))
    as Hepoch by (vm_compute; reflexivity).
  assert (truthy (Num 5000) = true) as Htruthy by (vm_compute; reflexivity).
  rewrite (proj1 (X2_offset_is_added_in_milliseconds decimalNumber
                    isoParseDate 0 _ _ _ Hepoch Htruthy)).
  vm_compute. reflexivity.
Defined.

(** An offset of half a second adds [500]. *)
Example parseDateAttrs_offset_fraction :
  parseDateAttrs fractionNumber isoParseDate 0
    {[ "timestamp-ms" := "5000"; "offset-seconds" := "0.5" ]}
    ["timestamp-ms"] =
  (Returns (Num 5500), ["timestamp-ms"; "offset-seconds"]).
Proof. vm_compute. reflexivity. Qed.

(** Beyond [2^53] the sum is rounded: [2^56] and one second give
    [72057594037928928], where the exact sum is [72057594037928936]. *)
Example parseDateAttrs_offset_rounded :
  parseDateAttrs decimalNumber isoParseDate 0
    {[ "timestamp-ms" := "72057594037927936"; "offset-seconds" := "1" ]}
    ["timestamp-ms"] =
    (Returns (Num 72057594037928928), ["timestamp-ms"; "offset-seconds"]) ∧
  integerValue (Num 72057594037928928) = Some 72057594037928928 ∧
  72057594037928928 ≠ 72057594037927936 + 1 * 1000.
Proof. split; [| split]; [vm_compute; reflexivity.. | lia]. Qed.

Lemma X4_witness :
  parseDateAttrs decimalNumber isoParseDate 0
    {[ "datetime" := ""; "timestamp-ms" := "5000" ]}
    ["datetime"; "timestamp-ms"] =
  parseDateAttrs decimalNumber isoParseDate 0
    {[ "timestamp-ms" := "5000" ]} ["datetime"; "timestamp-ms"].
Proof.
  apply X4_empty_value_counts_as_missing; [| reflexivity].
  intros name H. apply elem_of_cons in H as [-> | H]; [by right |].
  apply list_elem_of_singleton in H as ->. by left.
Defined.

Lemma X5_witness :
  let element : gmap string string := {[ "end-date" := "next week" ]} in
  let dateAttrs := ["datetime"; "end-date"] in
  (∃ n, (parseDateAttrs decimalNumber isoParseDate 0 element dateAttrs).1 =
        Returns n) ∨
  (parseDateAttrs decimalNumber isoParseDate 0 element dateAttrs).1 =
    Throws (MissingAttributeError dateAttrs) ∨
  (∃ name value,
     name ∈ dateAttrs ∧ (name = "datetime" ∨ name = "end-date") ∧
     element !! name = Some value ∧
     (parseDateAttrs decimalNumber isoParseDate 0 element dateAttrs).1 =
       Throws (InvalidDateError value)).
Proof.
  apply X5_outcomes_on_recognized_names.
  repeat constructor; by eexists.
Defined.

Lemma X6_witness :
  parseDateAttrs decimalNumber isoParseDate 0
    {[ "datetime" := "tomorrow"; "timestamp-ms" := "5000" ]}
    ["datetime"; "timestamp-ms"] =
  (Throws (InvalidDateError "tomorrow"), ["datetime"]).
Proof.
  apply (X6_invalid_date_does_not_fall_through decimalNumber isoParseDate 0
           {[ "datetime" := "tomorrow"; "timestamp-ms" := "5000" ]}
           [] ["timestamp-ms"] Datetime "tomorrow").
  - by left.
  - repeat constructor; by eexists.
  - constructor.
  - reflexivity.
  - discriminate.
  - reflexivity.
Defined.


Lemma X9_witness :
  Forall (λ c, (0 <= BackgroundBlur.globalAlpha c)%Q ∧
               (BackgroundBlur.globalAlpha c <= 1)%Q)
         (BackgroundBlur.animate_ false [1000; 1016; 1300]%Q).
Proof.
  refine (proj1 (X9_alpha_stays_between_0_and_1 false [1000; 1016; 1300]%Q _)).
  repeat constructor; discriminate.
Defined.
